(** * marrow.mailer.manager.dynamic: the self-scaling worker pool

    A shallow embedding of [marrow/mailer/manager/dynamic.py], the
    properties its specification states about it, and further properties
    of the code.

    The Python module is stateful: work items, futures, the job queue and the
    executor are shared mutable objects.  They live here in one [World]; every
    function of the module is a computation in the monad [M], which threads
    the world, may raise a Python exception and records the calls it makes
    into the runtime (queue waits, thread starts, joins, lock operations, log
    lines) as a list of events, in program order.

    Numbers are Python integers ([Z]).  The configured [timeout] goes through
    [float(...)] in the source; a float holding an integral value of ordinary
    size behaves like that integer in the only arithmetic done on it here
    ([+ 1], [-= 1], truth test), and the quotient [qsize / float(divisor)]
    rounds to nothing that [math.ceil] could see while both are below 2^53,
    so [ceil] of it is the integer ceiling of the exact quotient.

    Threads: a computation is what one thread does without being
    interrupted, and a run of several threads is a sequence of such
    computations.  [_spawn] is given in its two halves, so that what the new
    thread does between them can be written down.  No claim is made about
    what threads do inside one another's steps. *)

From stdpp Require Import gmap strings list fin_maps pretty.

Local Open Scope Z_scope.

(** ** Python values, exceptions and callables *)

Inductive PyVal :=
| PyNone
| PyInt (n : Z)
| PyStr (s : string).

(** An exception instance: its class name and its message. *)
Record PyExn := BaseException { exc_type : string; exc_msg : string }.

Definition Empty : PyExn := BaseException "Empty" "".
Definition ValueError (msg : string) : PyExn := BaseException "ValueError" msg.
Definition RuntimeError (msg : string) : PyExn := BaseException "RuntimeError" msg.
Definition InvalidStateError (msg : string) : PyExn := BaseException "InvalidStateError" msg.
Definition ZeroDivisionError : PyExn :=
  BaseException "ZeroDivisionError" "float division by zero".

(** [isinstance e cls]: the [except cls:] test.  None of the classes used by
    the module has a subclass in play, so the test compares class names. *)
Definition isinstance (e : PyExn) (cls : string) : bool :=
  bool_decide (exc_type e = cls).

(** What calling a callable comes to: it returns a value or raises. *)
Inductive Outcome :=
| Returns (v : PyVal)
| Raises (e : PyExn).

(** A callable, applied to its positional and keyword arguments.  The
    callables handed to the pool are opaque to it; they are taken to touch
    nothing of the pool's own state. *)
Definition Callable := list PyVal -> list (string * PyVal) -> Outcome.

(** ** The data model *)

(** A [concurrent.futures.Future]: its state, and once finished what it was
    resolved with, a result or an exception. *)
Inductive Future :=
| PENDING
| RUNNING
| CANCELLED
| CANCELLED_AND_NOTIFIED
| FINISHED (resolved : Outcome).

(** [class WorkItem], [__slots__ = ('future', 'fn', 'args', 'kwargs')].  The
    future is an object shared with whoever submitted the work, so the item
    holds its identity; the object itself is in the world's store. *)
Record WorkItem := {
  future : nat;
  fn : Callable;
  args : list PyVal;
  kwargs : list (string * PyVal)
}.

(** The attributes of a [ScalingPoolExecutor] that the module reads or
    writes.  [_threads] is a Python [set] of [Thread] objects, kept here as
    the set of their identities. *)
Record ScalingPoolExecutor := {
  _max_workers : Z;
  divisor : Z;
  timeout : Z;
  _threads : gset nat;
  _shutdown : bool
}.

(** References to the executor and to its queue.  A world holds one of each,
    so a reference says nothing more than which of the two it is; whether a
    weak reference to the executor still resolves is the world's to say. *)
Inductive ExecutorRef := the_executor.
Inductive QueueRef := the_work_queue.

(** A [threading.Thread] whose target is [thread_worker]: the positional
    [args] tuple it was built with, and its [daemon] flag. *)
Record Thread := {
  thread_args : ExecutorRef * QueueRef * Z * Z;
  daemon : bool;
  started : bool
}.

Record World := {
  executor : ScalingPoolExecutor;
  (** the executor has been reclaimed: weak references to it are dead *)
  collected : bool;
  (** [self._work_queue]; [None] is the stop sentinel.  Workers hold the
      queue strongly, so it outlives the executor. *)
  _work_queue : list (option WorkItem);
  (** the future objects, by identity; one never touched is still new *)
  futures : gmap nat Future;
  (** the thread objects created so far, by identity *)
  thread_objects : gmap nat Thread
}.

Definition with_executor (e : ScalingPoolExecutor) (w : World) : World :=
  {| executor := e; collected := collected w; _work_queue := _work_queue w;
     futures := futures w; thread_objects := thread_objects w |}.

Definition with_queue (q : list (option WorkItem)) (w : World) : World :=
  {| executor := executor w; collected := collected w; _work_queue := q;
     futures := futures w; thread_objects := thread_objects w |}.

Definition with_futures (fs : gmap nat Future) (w : World) : World :=
  {| executor := executor w; collected := collected w; _work_queue := _work_queue w;
     futures := fs; thread_objects := thread_objects w |}.

Definition with_thread_objects (ts : gmap nat Thread) (w : World) : World :=
  {| executor := executor w; collected := collected w; _work_queue := _work_queue w;
     futures := futures w; thread_objects := ts |}.

Definition with_threads (s : gset nat) (e : ScalingPoolExecutor) : ScalingPoolExecutor :=
  {| _max_workers := _max_workers e; divisor := divisor e; timeout := timeout e;
     _threads := s; _shutdown := _shutdown e |}.

Definition with_shutdown (b : bool) (e : ScalingPoolExecutor) : ScalingPoolExecutor :=
  {| _max_workers := _max_workers e; divisor := divisor e; timeout := timeout e;
     _threads := _threads e; _shutdown := b |}.

(** The future named [f] as the world has it. *)
Definition future_of (w : World) (f : nat) : Future :=
  default PENDING (futures w !! f).

(** ** Events: what a computation asks of the runtime, in program order *)

Inductive Lock := _shutdown_lock | _management_lock.

Inductive Level := DEBUG | INFO | CRITICAL.

Inductive Event :=
| Log (lvl : Level) (msg : string)
(** [jobs.get(block, timeout)] called by thread [t] *)
| QueueGet (t : nat) (block : bool) (bound : Z)
(** [queue.put(item)]: a work item, named by its future, or the sentinel *)
| QueuePut (item : option nat)
(** the callable of the work item holding future [f] was called *)
| Invoke (f : nat)
| SetResult (f : nat) (v : PyVal)
| SetException (f : nat) (e : PyExn)
| ThreadStart (t : nat)
| ThreadJoin (t : nat)
(** [_threads.add(t)] and [_threads.discard(t)] *)
| ThreadsAdd (t : nat)
| ThreadsDiscard (t : nat)
| Acquire (l : Lock)
| Release (l : Lock)
| AtexitRegister
| TransportStartup
| TransportShutdown.

(** ** The monad: state, exceptions and the event log *)

Inductive Result (A : Type) :=
| Ok (a : A)
| Exc (e : PyExn).
Arguments Ok {A} a.
Arguments Exc {A} e.

Record Reply (A : Type) := mkReply {
  outcome : Result A;
  after : World;
  emitted : list Event
}.
Arguments mkReply {A} _ _ _.
Arguments outcome {A} _.
Arguments after {A} _.
Arguments emitted {A} _.

Definition M (A : Type) : Type := World -> Reply A.

Definition ret {A} (a : A) : M A := fun w => mkReply (Ok a) w [].

Definition raise {A} (e : PyExn) : M A := fun w => mkReply (Exc e) w [].

Definition bind {A B} (m : M A) (k : A -> M B) : M B := fun w =>
  let r := m w in
  match outcome r with
  | Ok a => let r' := k a (after r) in
            mkReply (outcome r') (after r') (emitted r ++ emitted r')
  | Exc e => mkReply (Exc e) (after r) (emitted r)
  end.

Notation "x <- m ;; k" := (bind m (fun x => k))
  (at level 100, m at next level, right associativity).
Notation "m ;; k" := (bind m (fun _ => k))
  (at level 100, right associativity).

Definition emit (e : Event) : M unit := fun w => mkReply (Ok tt) w [e].

Definition gets {A} (f : World -> A) : M A := fun w => mkReply (Ok (f w)) w [].

Definition modify (f : World -> World) : M unit := fun w => mkReply (Ok tt) (f w) [].

(** [try: body / except <classes matched by handler>: ... / else: orelse].
    The handler answers [None] for an exception its clauses do not match,
    which then propagates; exceptions of [orelse] are not caught. *)
Definition try_except_else {A B} (body : M A) (handler : PyExn -> option (M B))
    (orelse : A -> M B) : M B := fun w =>
  let r := body w in
  match outcome r with
  | Ok a => let r' := orelse a (after r) in
            mkReply (outcome r') (after r') (emitted r ++ emitted r')
  | Exc e =>
      match handler e with
      | Some h => let r' := h (after r) in
                  mkReply (outcome r') (after r') (emitted r ++ emitted r')
      | None => mkReply (Exc e) (after r) (emitted r)
      end
  end.

(** [with lock: body]: the lock is released on every way out. *)
Definition with_lock {A} (l : Lock) (body : M A) : M A := fun w =>
  let r := body w in
  mkReply (outcome r) (after r) (Acquire l :: emitted r ++ [Release l]).

(** [for _ in range(n): body] *)
Fixpoint for_range (n : nat) (body : M unit) : M unit :=
  match n with
  | O => ret tt
  | S n' => body ;; for_range n' body
  end.

(** [for x in xs: body x] *)
Fixpoint for_each {A} (xs : list A) (body : A -> M unit) : M unit :=
  match xs with
  | [] => ret tt
  | x :: xs' => body x ;; for_each xs' body
  end.

Definition log_debug (msg : string) : M unit := emit (Log DEBUG msg).
Definition log_info (msg : string) : M unit := emit (Log INFO msg).
Definition log_critical (msg : string) : M unit := emit (Log CRITICAL msg).

(** ** The runtime the module runs on *)

(** Modelled from the spec: the result-handle is [concurrent.futures.Future],
    whose code is not under src/.  The spec has it resolved at most once,
    cancellable only before it runs, and "marking it running" failing exactly
    when it was cancelled; the states and the refusals are the library's. *)
Module Future.

Definition store (self : nat) (x : Future) : M unit :=
  modify (fun w => with_futures (<[self := x]> (futures w)) w).

(** [Future()]: a new object, distinct from every future there is, and
    pending. *)
Definition new : M nat :=
  self <- gets (fun w => fresh (dom (futures w))) ;;
  store self PENDING ;;
  ret self.

Definition cancel (self : nat) : M bool :=
  fut <- gets (fun w => future_of w self) ;;
  match fut with
  | RUNNING | FINISHED _ => ret false
  | CANCELLED | CANCELLED_AND_NOTIFIED => ret true
  | PENDING => store self CANCELLED ;; ret true
  end.

Definition set_running_or_notify_cancel (self : nat) : M bool :=
  fut <- gets (fun w => future_of w self) ;;
  match fut with
  | CANCELLED => store self CANCELLED_AND_NOTIFIED ;; ret false
  | PENDING => store self RUNNING ;; ret true
  | _ => raise (RuntimeError "Future in unexpected state")
  end.

Definition set_result (self : nat) (result : PyVal) : M unit :=
  fut <- gets (fun w => future_of w self) ;;
  match fut with
  | CANCELLED | CANCELLED_AND_NOTIFIED | FINISHED _ =>
      raise (InvalidStateError "future already done")
  | _ => store self (FINISHED (Returns result)) ;; emit (SetResult self result)
  end.

Definition set_exception (self : nat) (exception : PyExn) : M unit :=
  fut <- gets (fun w => future_of w self) ;;
  match fut with
  | CANCELLED | CANCELLED_AND_NOTIFIED | FINISHED _ =>
      raise (InvalidStateError "future already done")
  | _ => store self (FINISHED (Raises exception)) ;; emit (SetException self exception)
  end.

(** [cancelled()], [done()], and what [result()] and [exception()] have to
    show: the observations a caller can make. *)
Definition cancelled (fut : Future) : bool :=
  match fut with
  | CANCELLED | CANCELLED_AND_NOTIFIED => true
  | _ => false
  end.

Definition done (fut : Future) : bool :=
  match fut with
  | CANCELLED | CANCELLED_AND_NOTIFIED | FINISHED _ => true
  | _ => false
  end.

Definition result (fut : Future) : option PyVal :=
  match fut with
  | FINISHED (Returns v) => Some v
  | _ => None
  end.

Definition exception (fut : Future) : option PyExn :=
  match fut with
  | FINISHED (Raises e) => Some e
  | _ => None
  end.

End Future.

(** The job queue ([queue.SimpleQueue]): first in, first out. *)
Module Queue.

Definition put (item : option WorkItem) : M unit :=
  emit (QueuePut (future <$> item)) ;;
  modify (fun w => with_queue (_work_queue w ++ [item]) w).

Definition qsize : M Z :=
  gets (fun w => Z.of_nat (length (_work_queue w))).

(** [jobs.get(block, timeout)] called by thread [me].  A negative bound is
    refused.  Otherwise the head is taken; when the wait is over and
    there is still nothing, [Empty] is raised. *)
Definition get (me : nat) (jobs : QueueRef) (block : bool) (bound : Z)
    : M (option WorkItem) :=
  emit (QueueGet me block bound) ;;
  if bound <? 0 then raise (ValueError "'timeout' must be a non-negative number")
  else
    q <- gets _work_queue ;;
    match q with
    | [] => raise Empty
    | item :: rest => modify (with_queue rest) ;; ret item
    end.

End Queue.

(** [threading.Thread]: construction, [start] and [join]. *)
Module Threading.

(** [Thread(target=thread_worker, args=args)]: a new object, distinct from
    every thread there is. *)
Definition Thread (args : ExecutorRef * QueueRef * Z * Z) : M nat :=
  t <- gets (fun w => fresh (dom (thread_objects w) ∪ _threads (executor w))) ;;
  modify (fun w => with_thread_objects
    (<[t := {| thread_args := args; daemon := false; started := false |}]>
       (thread_objects w)) w) ;;
  ret t.

Definition set_daemon (t : nat) (b : bool) : M unit :=
  modify (fun w => with_thread_objects
    (alter (fun th => {| thread_args := thread_args th; daemon := b;
                         started := started th |}) t (thread_objects w)) w).

(** From [start] on the thread runs its target, on its own. *)
Definition start (t : nat) : M unit :=
  modify (fun w => with_thread_objects
    (alter (fun th => {| thread_args := thread_args th; daemon := daemon th;
                         started := true |}) t (thread_objects w)) w) ;;
  emit (ThreadStart t).

Definition join (t : nat) : M unit := emit (ThreadJoin t).

End Threading.

(** [executor()]: the executor behind the weak reference, or [None] once it
    has been reclaimed. *)
Definition deref (r : ExecutorRef) : M (option ScalingPoolExecutor) :=
  gets (fun w => if collected w then None else Some (executor w)).

(** [runner._threads.discard(t)] and [self._threads.add(t)] *)
Definition threads_discard (t : nat) : M unit :=
  emit (ThreadsDiscard t) ;;
  modify (fun w => with_executor
    (with_threads (_threads (executor w) ∖ {[t]}) (executor w)) w).

Definition threads_add (t : nat) : M unit :=
  emit (ThreadsAdd t) ;;
  modify (fun w => with_executor
    (with_threads ({[t]} ∪ _threads (executor w)) (executor w)) w).

(** ** [class WorkItem] *)

Module WorkItem.

Definition __init__ (future : nat) (fn : Callable) (args : list PyVal)
    (kwargs : list (string * PyVal)) : WorkItem :=
  {| future := future; fn := fn; args := args; kwargs := kwargs |}.

(** [self.fn( *self.args, **self.kwargs)] *)
Definition call (self : WorkItem) : M PyVal :=
  emit (Invoke (future self)) ;;
  match fn self (args self) (kwargs self) with
  | Returns v => ret v
  | Raises e => raise e
  end.

Definition run (self : WorkItem) : M unit :=
  ok <- Future.set_running_or_notify_cancel (future self) ;;
  if negb ok then ret tt
  else
    try_except_else (call self)
      (fun e => Some (Future.set_exception (future self) e))
      (fun result => Future.set_result (future self) result).

End WorkItem.

(** ** [thread_worker] *)

(** Why a worker left its loop. *)
Inductive Exit :=
| Starvation
| ShutdownSignal
| Exhaustion
| Unhandled (e : PyExn).

(** How the [try] statement inside the loop hands control on. *)
Inductive Ctl :=
| Break (why : Exit)
| Continue
| Else_ (work : WorkItem).

(** One pass through the body of [while i:], after [i -= 1].  [Some why]
    leaves the loop, [None] goes round again. *)
Definition iteration (me : nat) (executor : ExecutorRef) (jobs : QueueRef)
    (timeout : Z) : M (option Exit) :=
  try_except_else
    (work <- Queue.get me jobs true timeout ;;
     match work with
     | None =>
         runner <- deref executor ;;
         match runner with
         | None =>
             log_debug "Worker instructed to shut down." ;; ret (Break ShutdownSignal)
         | Some runner =>
             if _shutdown runner
             then log_debug "Worker instructed to shut down." ;; ret (Break ShutdownSignal)
             else ret Continue
         end
     | Some work => ret (Else_ work)
     end)
    (fun e =>
       if isinstance e "Empty"
       then Some (log_debug "Worker death from starvation." ;; ret (Some Starvation))
       else None)
    (fun c =>
       match c with
       | Break why => ret (Some why)
       | Continue => ret None
       | Else_ work => WorkItem.run work ;; ret None
       end).

(** [while i: ... else: ...].  The loop need not end (a counter that starts
    below zero never reaches it), so it runs on fuel; [None] says the fuel
    ran out with the loop still going. *)
Fixpoint while_i (fuel : nat) (me : nat) (executor : ExecutorRef) (jobs : QueueRef)
    (timeout : Z) (i : Z) : M (option Exit) :=
  match fuel with
  | O => ret None
  | S fuel' =>
      if i =? 0
      then log_debug "Worker death from exhaustion." ;; ret (Some Exhaustion)
      else
        let i := i - 1 in
        r <- iteration me executor jobs timeout ;;
        match r with
        | Some why => ret (Some why)
        | None => while_i fuel' me executor jobs timeout i
        end
  end.

(** [thread_worker(executor, jobs, timeout, maximum)], run by the thread
    [me] (what [current_thread()] answers).  The Python function returns
    nothing; the model returns why the loop was left. *)
Definition thread_worker (fuel : nat) (me : nat) (executor : ExecutorRef)
    (jobs : QueueRef) (timeout : Z) (maximum : Z) : M (option Exit) :=
  let i := maximum + 1 in
  r <- try_except_else (while_i fuel me executor jobs timeout i)
         (fun e => Some (log_critical "Unhandled exception in worker." ;;
                         ret (Some (Unhandled e))))
         ret ;;
  match r with
  | None => ret None
  | Some why =>
      runner <- deref executor ;;
      match runner with
      | Some _ => threads_discard me
      | None => ret tt
      end ;;
      ret (Some why)
  end.

(** What a started thread does: it calls its target on its [args], in their
    order.  A thread that was not started runs nothing. *)
Definition run_thread (fuel : nat) (t : nat) : M (option Exit) :=
  th <- gets (fun w => thread_objects w !! t) ;;
  match th with
  | Some {| thread_args := (a1, a2, a3, a4); started := true |} =>
      thread_worker fuel t a1 a2 a3 a4
  | _ => ret None
  end.

(** ** [class ScalingPoolExecutor(futures.ThreadPoolExecutor)] *)

(** [math.ceil(n / float(d))] for [d] other than zero. *)
Definition ceil_div (n d : Z) : Z := - ((- n) / d).

(** No object yet: what [__init__] starts from. *)
Definition blank : World :=
  {| executor := {| _max_workers := 0; divisor := 0; timeout := 0;
                    _threads := ∅; _shutdown := false |};
     collected := false; _work_queue := []; futures := ∅; thread_objects := ∅ |}.

Module ScalingPoolExecutor.

(** [super().__init__(workers)], the library's [ThreadPoolExecutor]: it
    refuses a pool of no workers, and starts with an empty queue, no
    threads and the shutdown flag down. *)
Definition super__init__ (max_workers : Z) : M unit :=
  if max_workers <=? 0
  then raise (ValueError "max_workers must be greater than 0")
  else
    modify (fun w => with_queue [] (with_executor
      {| _max_workers := max_workers; divisor := divisor (executor w);
         timeout := timeout (executor w); _threads := ∅; _shutdown := false |} w)).

Definition __init__ (workers divisor timeout : Z) : M unit :=
  modify (fun w => with_executor
    {| _max_workers := _max_workers (executor w); divisor := divisor;
       timeout := timeout; _threads := _threads (executor w);
       _shutdown := _shutdown (executor w) |} w) ;;
  super__init__ workers ;;
  emit AtexitRegister.

Definition shutdown (wait : bool) : M unit :=
  with_lock _shutdown_lock
    (modify (fun w => with_executor (with_shutdown true (executor w)) w) ;;
     n <- gets (fun w => size (_threads (executor w))) ;;
     for_range n (Queue.put None)) ;;
  if wait
  then
    ts <- gets (fun w => elements (_threads (executor w))) ;;
    for_each ts Threading.join
  else ret tt.


(** [_spawn], first half: the thread is built, made a daemon and started. *)
Definition spawn_start : M nat :=
  self <- gets executor ;;
  t <- Threading.Thread (the_executor, the_work_queue, divisor self, timeout self) ;;
  Threading.set_daemon t true ;;
  Threading.start t ;;
  ret t.

(** [_spawn], second half: the thread is put into [_threads]. *)
Definition spawn_register (t : nat) : M unit :=
  with_lock _management_lock (threads_add t).

Definition _spawn : M unit :=
  t <- spawn_start ;;
  spawn_register t.

(** The property [_optimum_workers]. *)
Definition _optimum_workers : M Z :=
  self <- gets executor ;;
  qsize <- Queue.qsize ;;
  if divisor self =? 0 then raise ZeroDivisionError
  else ret (Z.min (_max_workers self) (ceil_div qsize (divisor self))).

Definition _adjust_thread_count : M unit :=
  pool <- gets (fun w => Z.of_nat (size (_threads (executor w)))) ;;
  optimum <- _optimum_workers ;;
  if pool <? optimum
  then
    optimum <- _optimum_workers ;;
    let tospawn := optimum - pool in
    log_debug ("Spawning " +:+ pretty tospawn +:+ " thread" +:+
               (if tospawn =? 1 then "" else "s") +:+ ".") ;;
    for_range (Z.to_nat tospawn) _spawn
  else ret tt.

(** Modelled from the spec: [submit] is inherited from
    [concurrent.futures.ThreadPoolExecutor], whose code is not under src/.
    The spec: it "constructs a Work Item with a fresh result-handle,
    enqueues it, invokes the scaling adjustment, and returns the
    result-handle", and it "fails by raising if called after shutdown has
    been initiated". *)
Definition submit (fn : Callable) (args : list PyVal)
    (kwargs : list (string * PyVal)) : M nat :=
  self <- gets executor ;;
  if _shutdown self
  then raise (RuntimeError "cannot schedule new futures after shutdown")
  else
    f <- Future.new ;;
    Queue.put (Some (WorkItem.__init__ f fn args kwargs)) ;;
    _adjust_thread_count ;;
    ret f.

End ScalingPoolExecutor.

(** ** [class DynamicManager] *)

Module DynamicManager.

(** Modelled from the spec: [TransportPool] (from [.util]) and [worker]
    (from [.futures]) are not under src/.  The pool is taken for what
    sending one message through it comes to, "capable of sending one
    message and raising on failure"; [worker] "borrows a transport from the
    transport pool, sends the message, and returns/raises based on
    transport outcome". *)
Definition TransportPool := PyVal -> Outcome.

Definition worker : TransportPool -> Callable :=
  fun pool args _ =>
    match args with
    | [message] => pool message
    | _ => Raises (BaseException "TypeError" "worker() takes 2 positional arguments")
    end.

Record t := {
  workers : Z;
  divisor : Z;
  timeout : Z;
  executor : option ExecutorRef;
  transport : TransportPool
}.

Definition name : string := "Dynamic".

(** [config.get(key, default)] on a configuration of numbers. *)
Definition config_get (config : gmap string Z) (key : string) (default : Z) : Z :=
  match config !! key with
  | Some v => v
  | None => default
  end.

Definition __init__ (config : gmap string Z) (transport : TransportPool) : t :=
  {| workers := config_get config "workers" 10;
     divisor := config_get config "divisor" 10;
     timeout := config_get config "timeout" 60;
     executor := None;
     transport := transport |}.

Definition startup (self : t) : M t :=
  log_info (name +:+ " manager starting up.") ;;
  log_debug "Initializing transport queue." ;;
  emit TransportStartup ;;
  let workers := workers self in
  log_debug ("Starting thread pool with " +:+ pretty workers +:+ " workers.") ;;
  ScalingPoolExecutor.__init__ workers (divisor self) (timeout self) ;;
  log_info (name +:+ " manager ready.") ;;
  ret {| workers := workers; divisor := divisor self; timeout := timeout self;
         executor := Some the_executor; transport := transport self |}.

Definition deliver (self : t) (message : PyVal) : M nat :=
  match executor self with
  | None => raise (BaseException "AttributeError"
                     "'NoneType' object has no attribute 'submit'")
  | Some _ => ScalingPoolExecutor.submit (worker (transport self)) [message] []
  end.

Definition shutdown (self : t) (wait : bool) : M unit :=
  log_info (name +:+ " manager stopping.") ;;
  log_debug "Stopping thread pool." ;;
  match executor self with
  | None => raise (BaseException "AttributeError"
                     "'NoneType' object has no attribute 'shutdown'")
  | Some _ => ScalingPoolExecutor.shutdown wait
  end ;;
  log_debug "Draining transport queue." ;;
  emit TransportShutdown ;;
  log_info (name +:+ " manager stopped.").

End DynamicManager.

(** ** Reading a trace *)

(** The queue waits in a trace. *)
Definition is_wait (e : Event) : bool :=
  match e with
  | QueueGet _ _ _ => true
  | _ => false
  end.

Definition waits (tr : list Event) : list Event := List.filter is_wait tr.

(** The threads started in a trace. *)
Definition is_start (e : Event) : bool :=
  match e with
  | ThreadStart _ => true
  | _ => false
  end.

Definition starts (tr : list Event) : list Event := List.filter is_start tr.

(** What the future [f] was resolved with in a trace, in order. *)
Definition resolution_of (f : nat) (e : Event) : option Outcome :=
  match e with
  | SetResult g v => if decide (g = f) then Some (Returns v) else None
  | SetException g x => if decide (g = f) then Some (Raises x) else None
  | _ => None
  end.

Definition resolutions (f : nat) (tr : list Event) : list Outcome :=
  omap (resolution_of f) tr.

(** The event that resolving [f] with [o] leaves. *)
Definition resolve_event (f : nat) (o : Outcome) : Event :=
  match o with
  | Returns v => SetResult f v
  | Raises e => SetException f e
  end.

(** Where an event first occurs in a trace. *)
Fixpoint first_index (p : Event -> bool) (tr : list Event) : option nat :=
  match tr with
  | [] => None
  | e :: tr' => if p e then Some O else S <$> first_index p tr'
  end.

Definition is_add (t : nat) (e : Event) : bool :=
  match e with
  | ThreadsAdd u => bool_decide (u = t)
  | _ => false
  end.

Definition is_wait_of (t : nat) (e : Event) : bool :=
  match e with
  | QueueGet u _ _ => bool_decide (u = t)
  | _ => false
  end.

Definition is_start_of (t : nat) (e : Event) : bool :=
  match e with
  | ThreadStart u => bool_decide (u = t)
  | _ => false
  end.

(** [a] happens in the trace, and nothing matching [b] happens before it. *)
Definition precedes (a b : Event -> bool) (tr : list Event) : bool :=
  match first_index a tr, first_index b tr with
  | Some i, Some j => bool_decide (i < j)%nat
  | Some _, None => true
  | None, _ => false
  end.

(** In this trace thread [t] was put into the live-worker set before it was
    started, and so before it went into its loop. *)
Definition registered_before_running (t : nat) (tr : list Event) : bool :=
  precedes (is_add t) (is_start_of t) tr && precedes (is_add t) (is_wait_of t) tr.

(** An event that neither calls a callable nor resolves a future. *)
Definition is_quiet (e : Event) : bool :=
  match e with
  | Invoke _ | SetResult _ _ | SetException _ _ => false
  | _ => true
  end.

(** ** Reading what a worker and a manager did *)





(** A thread is joined; the transport pool is shut down. *)
Definition is_join (t : nat) (e : Event) : bool :=
  match e with
  | ThreadJoin u => bool_decide (u = t)
  | _ => false
  end.

Definition is_transport_shutdown (e : Event) : bool :=
  match e with
  | TransportShutdown => true
  | _ => false
  end.

(** ** What the statements speak of *)

(** [ScalingPoolExecutor(workers, divisor, timeout)], just built. *)
Definition pool (workers divisor timeout : Z) : World :=
  after (ScalingPoolExecutor.__init__ workers divisor timeout blank).

(** The world once [__init__] has built the executor in it. *)
Definition built (workers divisor timeout : Z) (w : World) : World :=
  with_queue []
    (with_executor
       {| _max_workers := workers; divisor := divisor; timeout := timeout;
          _threads := ∅; _shutdown := false |} w).

(** The number of threads in the live-worker set, [len(self._threads)]. *)
Definition pool_size (w : World) : Z := Z.of_nat (size (_threads (executor w))).

(** [_optimum_workers] as a number, where the divisor is not zero. *)
Definition optimum (w : World) : Z :=
  Z.min (_max_workers (executor w))
    (ceil_div (Z.of_nat (length (_work_queue w))) (divisor (executor w))).

(** The identity a thread made now would get. *)
Definition next_thread (w : World) : nat :=
  fresh (dom (thread_objects w) ∪ _threads (executor w)).

(** The identity a future made now would get. *)
Definition next_future (w : World) : nat := fresh (dom (futures w)).

(** The thread object that [_spawn] builds for an executor. *)
Definition worker_thread (e : ScalingPoolExecutor) : Thread :=
  {| thread_args := (the_executor, the_work_queue, divisor e, timeout e);
     daemon := true; started := true |}.

(** The world once [submit] has made the future and queued the item, before
    the scaling adjustment. *)
Definition enqueued (fn : Callable) (args : list PyVal) (kwargs : list (string * PyVal))
    (w : World) : World :=
  with_queue (_work_queue w ++ [Some (WorkItem.__init__ (next_future w) fn args kwargs)])
    (with_futures (<[next_future w := PENDING]> (futures w)) w).

(** The world once [me] is out of the live-worker set. *)
Definition without_thread (me : nat) (w : World) : World :=
  with_executor (with_threads (_threads (executor w) ∖ {[me]}) (executor w)) w.

(** What the loop's way out is reported as, and the critical log line of the
    top-level handler. *)
Definition exit_of (r : Reply (option Exit)) : option Exit :=
  match outcome r with
  | Ok x => x
  | Exc e => Some (Unhandled e)
  end.

Definition fatal_log (r : Reply (option Exit)) : list Event :=
  match outcome r with
  | Ok _ => []
  | Exc _ => [Log CRITICAL "Unhandled exception in worker."]
  end.

(** The trace of [shutdown(wait)] on a pool of [n] threads [ts]. *)
Definition shutdown_trace (wait : bool) (ts : list nat) : list Event :=
  Acquire _shutdown_lock :: replicate (length ts) (QueuePut None) ++
  Release _shutdown_lock :: (if wait then ThreadJoin <$> ts else []).

(** The parts of the world a work item does not touch. *)
Definition same_pool (w w' : World) : Prop :=
  executor w' = executor w /\ collected w' = collected w /\
  thread_objects w' = thread_objects w.

(** The executor's settings, which no method changes once it is built. *)
Definition same_settings (e e' : ScalingPoolExecutor) : Prop :=
  _max_workers e' = _max_workers e /\ divisor e' = divisor e /\
  timeout e' = timeout e /\ _shutdown e' = _shutdown e.

(** ** The pool in use *)

(** What the users of the pool and its threads do, one step at a time. *)
Inductive Action :=
| Submit (fn : Callable) (args : list PyVal) (kwargs : list (string * PyVal))
| Cancel (f : nat)
| Shutdown (wait : bool)
| RunThread (fuel : nat) (t : nat).

Definition act (a : Action) : M unit :=
  match a with
  | Submit fn args kwargs => ScalingPoolExecutor.submit fn args kwargs ;; ret tt
  | Cancel f => Future.cancel f ;; ret tt
  | Shutdown wait => ScalingPoolExecutor.shutdown wait
  | RunThread fuel t => run_thread fuel t ;; ret tt
  end.

(** The world after a run of actions.  An action that raises leaves what it
    had done by then. *)
Fixpoint run_actions (acts : list Action) (w : World) : World :=
  match acts with
  | [] => w
  | a :: rest => run_actions rest (after (act a w))
  end.

(** The trace of a run of actions. *)
Fixpoint trace_actions (acts : list Action) (w : World) : list Event :=
  match acts with
  | [] => []
  | a :: rest => emitted (act a w) ++ trace_actions rest (after (act a w))
  end.

(** The worlds a pool can get into: it is built, with a positive number of
    workers, and then used. *)
Definition reachable (w : World) : Prop :=
  exists (workers divisor timeout : Z) (acts : list Action),
    0 < workers /\ w = run_actions acts (pool workers divisor timeout).

(** The futures of the items waiting in the queue, in order. *)
Definition queued_futures (w : World) : list nat :=
  omap (fmap future) (_work_queue w).

(** A future that [run] can still take up: pending, or cancelled and not yet
    noted. *)
Definition runnable (w : World) (f : nat) : Prop :=
  future_of w f = PENDING \/ future_of w f = CANCELLED.

(** The queue holds each future once, and only futures that exist and that
    [run] can still take up. *)
Definition queue_ok (w : World) : Prop :=
  NoDup (queued_futures w) /\
  forall f, f ∈ queued_futures w -> f ∈ dom (futures w) /\ runnable w f.

(** What holds of every such world. *)
Definition pool_ok (w : World) : Prop :=
  pool_size w <= _max_workers (executor w) /\ queue_ok w.

(** A computation keeps [I], a property of the world and of the trace that
    led to it. *)
Definition keeps (I : World -> list Event -> Prop) {A} (m : M A) : Prop :=
  forall w tr, I w tr -> I (after (m w)) (tr ++ emitted (m w)).

(** The trace shows each future resolved with just what the store has it
    finished with, and with nothing if it is not finished. *)
Definition resolved_as_stored (w : World) (tr : list Event) : Prop :=
  forall f, resolutions f tr =
            match future_of w f with
            | FINISHED o => [o]
            | _ => []
            end.

(** The future [f] is cancelled and its callable has not been called. *)
Definition cancelled_uncalled (f : nat) (w : World) (tr : list Event) : Prop :=
  Future.cancelled (future_of w f) = true /\ Invoke f ∉ tr.

(** The future [f] is finished with [o], and the trace does not resolve it. *)
Definition finished_for_good (f : nat) (o : Outcome) (w : World) (tr : list Event) : Prop :=
  future_of w f = FINISHED o /\ resolutions f tr = [].

(** One interleaving of [_spawn] with the thread it starts: the new thread
    runs, to its end, between [t.start()] and its registration. *)
Definition spawn_with_eager_worker (fuel : nat) : M (nat * option Exit) :=
  t <- ScalingPoolExecutor.spawn_start ;;
  why <- run_thread fuel t ;;
  ScalingPoolExecutor.spawn_register t ;;
  ret (t, why).

(** The executor is there, every thread of its live-worker set is a thread
    object, and every thread object is one that [_spawn] built for it. *)
Definition threads_ok (w : World) : Prop :=
  collected w = false /\
  _threads (executor w) ⊆ dom (thread_objects w) /\
  forall t th, thread_objects w !! t = Some th -> th = worker_thread (executor w).

(** ** Sample objects *)

Definition sample_item (o : Outcome) : WorkItem :=
  WorkItem.__init__ 0 (fun _ _ => o) [] [].

(** A world in which future 0 was cancelled while still pending. *)
Definition cancelled_world : World :=
  after (Future.cancel 0%nat blank).

(** A work item that returns 7, on the future [f]. *)
Definition item7 (f : nat) : WorkItem :=
  WorkItem.__init__ f (fun _ _ => Returns (PyInt 7)) [] [].

(** The same with [items] in its queue and the threads [ts] in its set. *)
Definition pool_with (workers divisor timeout : Z) (items : list (option WorkItem))
    (ts : gset nat) : World :=
  let w := pool workers divisor timeout in
  with_queue items (with_executor (with_threads ts (executor w)) w).

(** The same after [shutdown] has raised the flag. *)
Definition stopping (w : World) : World :=
  with_executor (with_shutdown true (executor w)) w.


(** A transport pool through which every message goes out. *)
Definition sample_transport : DynamicManager.TransportPool :=
  fun _ => Returns PyNone.


(** A pool of one worker on which two callables were submitted. *)
Definition two_submitted : World :=
  run_actions [Submit (fun _ _ => Returns (PyInt 7)) [] [];
               Submit (fun _ _ => Raises (ValueError "x")) [] []] (pool 1 1 5).



(** A started manager: two workers at most, a divisor of five, a timeout of
    sixty. *)
Definition sample_manager : DynamicManager.t :=
  {| DynamicManager.workers := 2; DynamicManager.divisor := 5;
     DynamicManager.timeout := 60; DynamicManager.executor := Some the_executor;
     DynamicManager.transport := sample_transport |}.

(** * Properties *)

Ltac monad_unfold :=
  unfold log_debug, log_critical, log_info in *;
  unfold bind, ret, raise, gets, modify, emit, try_except_else, with_lock in *.

Ltac reply_simpl := cbn [outcome after emitted app negb] in *.

(** ** Stepping through a computation *)

Lemma bind_ok {A B} (m : M A) (k : A -> M B) (w w' : World) (a : A) (tr : list Event) :
  m w = mkReply (Ok a) w' tr ->
  bind m k w = mkReply (outcome (k a w')) (after (k a w')) (tr ++ emitted (k a w')).
Proof. intros Hm. unfold bind. rewrite Hm. reflexivity. Qed.

Lemma bind_exc {A B} (m : M A) (k : A -> M B) (w w' : World) (e : PyExn)
    (tr : list Event) :
  m w = mkReply (Exc e) w' tr ->
  bind m k w = mkReply (Exc e) w' tr.
Proof. intros Hm. unfold bind. rewrite Hm. reflexivity. Qed.

Lemma with_lock_reply {A} (l : Lock) (m : M A) (w : World) :
  with_lock l m w =
  mkReply (outcome (m w)) (after (m w)) (Acquire l :: emitted (m w) ++ [Release l]).
Proof. reflexivity. Qed.

(** ** Futures in the store *)

Lemma future_of_store (w : World) (f g : nat) (x : Future) :
  future_of (with_futures (<[f := x]> (futures w)) w) g =
  if decide (f = g) then x else future_of w g.
Proof.
  unfold future_of. cbn [futures with_futures]. rewrite lookup_insert.
  destruct (decide (f = g)); reflexivity.
Qed.

Lemma future_of_store_same (w : World) (f : nat) (x : Future) :
  future_of (with_futures (<[f := x]> (futures w)) w) f = x.
Proof. rewrite future_of_store. apply decide_True. reflexivity. Qed.

Lemma store_twice (w : World) (f : nat) (x y : Future) :
  with_futures (<[f := y]> (futures (with_futures (<[f := x]> (futures w)) w)))
    (with_futures (<[f := x]> (futures w)) w) =
  with_futures (<[f := y]> (futures w)) w.
Proof. unfold with_futures. cbn. f_equal. apply insert_insert_eq. Qed.

(** Marking a future running fails exactly when it stands cancelled. *)
Lemma marking_fails_iff_cancelled (w : World) (f : nat) :
  outcome (Future.set_running_or_notify_cancel f w) = Ok false <->
  future_of w f = CANCELLED.
Proof.
  unfold Future.set_running_or_notify_cancel, Future.store. monad_unfold. reply_simpl.
  destruct (future_of w f); reply_simpl; split; congruence.
Qed.

(** ** [WorkItem.run] *)

Lemma run_when_pending (self : WorkItem) (w : World) :
  future_of w (future self) = PENDING ->
  WorkItem.run self w =
  mkReply (Ok tt)
    (with_futures (<[future self := FINISHED (fn self (args self) (kwargs self))]> (futures w)) w)
    [Invoke (future self); resolve_event (future self) (fn self (args self) (kwargs self))].
Proof.
  intros Hpending.
  unfold WorkItem.run, WorkItem.call, Future.set_running_or_notify_cancel,
    Future.set_result, Future.set_exception, Future.store.
  monad_unfold. reply_simpl. rewrite Hpending. reply_simpl.
  destruct (fn self (args self) (kwargs self)) as [v | e]; reply_simpl;
    rewrite future_of_store_same; reply_simpl; cbn [resolve_event];
    rewrite store_twice; reflexivity.
Qed.

Lemma run_when_cancelled (self : WorkItem) (w : World) :
  future_of w (future self) = CANCELLED ->
  WorkItem.run self w =
  mkReply (Ok tt) (with_futures (<[future self := CANCELLED_AND_NOTIFIED]> (futures w)) w) [].
Proof.
  intros Hcancelled.
  unfold WorkItem.run, Future.set_running_or_notify_cancel, Future.store.
  monad_unfold. reply_simpl. rewrite Hcancelled. reflexivity.
Qed.

Lemma run_when_unexpected (self : WorkItem) (w : World) :
  future_of w (future self) <> PENDING ->
  future_of w (future self) <> CANCELLED ->
  WorkItem.run self w = mkReply (Exc (RuntimeError "Future in unexpected state")) w [].
Proof.
  intros Hnp Hnc.
  unfold WorkItem.run, Future.set_running_or_notify_cancel.
  monad_unfold. reply_simpl.
  destruct (future_of w (future self)); try congruence; reflexivity.
Qed.

(** ** The worker loop *)

Lemma waits_app (tr1 tr2 : list Event) : waits (tr1 ++ tr2) = waits tr1 ++ waits tr2.
Proof. apply List.filter_app. Qed.


Lemma same_pool_trans (w1 w2 w3 : World) :
  same_pool w1 w2 -> same_pool w2 w3 -> same_pool w1 w3.
Proof. unfold same_pool. intros (-> & -> & ->) (-> & -> & ->). repeat split. Qed.

Lemma run_trace (self : WorkItem) (w : World) :
  waits (emitted (WorkItem.run self w)) = [] /\
  same_pool w (after (WorkItem.run self w)) /\
  _work_queue (after (WorkItem.run self w)) = _work_queue w.
Proof.
  destruct (future_of w (future self)) eqn:Hst.
  1: rewrite (run_when_pending self w Hst).
  3: rewrite (run_when_cancelled self w Hst).
  2,4,5: rewrite (run_when_unexpected self w) by congruence.
  all: reply_simpl; repeat split.
  destruct (fn self (args self) (kwargs self)); reflexivity.
Qed.

Section Iteration.

Variables (me : nat) (ex : ExecutorRef) (jobs : QueueRef) (timeout : Z).

Let wait : Event := QueueGet me true timeout.

Lemma iteration_refused (w : World) :
  timeout < 0 ->
  iteration me ex jobs timeout w =
  mkReply (Exc (ValueError "'timeout' must be a non-negative number")) w [wait].
Proof.
  intros Hneg. unfold iteration, Queue.get. monad_unfold. reply_simpl.
  apply Z.ltb_lt in Hneg. rewrite Hneg. reflexivity.
Qed.

Lemma iteration_starved (w : World) :
  0 <= timeout -> _work_queue w = [] ->
  iteration me ex jobs timeout w =
  mkReply (Ok (Some Starvation)) w [wait; Log DEBUG "Worker death from starvation."].
Proof.
  intros Hpos Hq. unfold iteration, Queue.get. monad_unfold. reply_simpl.
  apply Z.ltb_ge in Hpos. rewrite Hpos. reply_simpl. rewrite Hq. reflexivity.
Qed.

Lemma iteration_sentinel_stop (w : World) (rest : list (option WorkItem)) :
  0 <= timeout -> _work_queue w = None :: rest ->
  collected w || _shutdown (executor w) = true ->
  iteration me ex jobs timeout w =
  mkReply (Ok (Some ShutdownSignal)) (with_queue rest w)
    [wait; Log DEBUG "Worker instructed to shut down."].
Proof.
  intros Hpos Hq Hstop. unfold iteration, Queue.get, deref. monad_unfold. reply_simpl.
  apply Z.ltb_ge in Hpos. rewrite Hpos. reply_simpl. rewrite Hq. reply_simpl.
  cbn [collected with_queue executor].
  destruct (collected w); [reflexivity|].
  cbn in Hstop. rewrite Hstop. reflexivity.
Qed.

Lemma iteration_sentinel_ignored (w : World) (rest : list (option WorkItem)) :
  0 <= timeout -> _work_queue w = None :: rest ->
  collected w = false -> _shutdown (executor w) = false ->
  iteration me ex jobs timeout w = mkReply (Ok None) (with_queue rest w) [wait].
Proof.
  intros Hpos Hq Hc Hs. unfold iteration, Queue.get, deref. monad_unfold. reply_simpl.
  apply Z.ltb_ge in Hpos. rewrite Hpos. reply_simpl. rewrite Hq. reply_simpl.
  cbn [collected with_queue executor]. rewrite Hc, Hs. reflexivity.
Qed.

Lemma iteration_work (w : World) (work : WorkItem) (rest : list (option WorkItem)) :
  0 <= timeout -> _work_queue w = Some work :: rest ->
  iteration me ex jobs timeout w =
  let r := WorkItem.run work (with_queue rest w) in
  mkReply (match outcome r with Ok _ => Ok None | Exc e => Exc e end)
    (after r) (wait :: emitted r).
Proof.
  intros Hpos Hq. unfold iteration, Queue.get. monad_unfold. reply_simpl.
  apply Z.ltb_ge in Hpos. rewrite Hpos. reply_simpl. rewrite Hq. reply_simpl.
  destruct (outcome (WorkItem.run work (with_queue rest w))); reply_simpl;
    rewrite ?app_nil_r; reflexivity.
Qed.

(** Every pass waits on the queue once, with the bound it was given, and
    leaves the executor and the thread objects as they were. *)
Lemma iteration_trace (w : World) :
  waits (emitted (iteration me ex jobs timeout w)) = [wait] /\
  same_pool w (after (iteration me ex jobs timeout w)) /\
  outcome (iteration me ex jobs timeout w) <> Ok (Some Exhaustion).
Proof.
  destruct (Z.lt_ge_cases timeout 0) as [Hneg | Hpos].
  { rewrite iteration_refused by assumption. repeat split; discriminate. }
  destruct (_work_queue w) as [| [work |] rest] eqn:Hq.
  - rewrite iteration_starved by assumption. repeat split; discriminate.
  - rewrite (iteration_work w work rest) by assumption. cbv zeta. reply_simpl.
    destruct (run_trace work (with_queue rest w)) as (Hw & Hp & _).
    split; [| split].
    + change (wait :: ?l) with ([wait] ++ l). rewrite waits_app, Hw. reflexivity.
    + exact Hp.
    + destruct (outcome (WorkItem.run work (with_queue rest w))); discriminate.
  - destruct (collected w || _shutdown (executor w)) eqn:Hstop.
    + rewrite (iteration_sentinel_stop w rest) by assumption. repeat split; discriminate.
    + apply orb_false_iff in Hstop as [Hc Hs].
      rewrite (iteration_sentinel_ignored w rest) by assumption. repeat split; discriminate.
Qed.

Lemma while_i_trace (fuel : nat) : forall (i : Z) (w : World),
  let r := while_i fuel me ex jobs timeout i w in
  Forall (eq wait) (waits (emitted r)) /\
  same_pool w (after r) /\
  (0 <= i -> (length (waits (emitted r)) <= Z.to_nat i)%nat) /\
  (0 <= i -> (Z.to_nat i < fuel)%nat -> outcome r <> Ok None) /\
  (outcome r = Ok (Some Exhaustion) -> Z.of_nat (length (waits (emitted r))) = i).
Proof.
  induction fuel as [| fuel IH]; intros i w; cbn [while_i].
  { monad_unfold. reply_simpl. cbn [waits List.filter is_wait length].
    repeat split; try (by constructor); try (intros; lia); try (intros; discriminate). }
  destruct (Z.eqb_spec i 0) as [-> | Hnz].
  { monad_unfold. reply_simpl. cbn [waits List.filter is_wait length].
    repeat split; try (by constructor); try (intros; lia); try (intros; discriminate). }
  cbv zeta. unfold bind.
  destruct (iteration_trace w) as (Hw & Hp & Hne).
  destruct (outcome (iteration me ex jobs timeout w)) as [[why |] | e] eqn:Hout;
    reply_simpl.
  - rewrite app_nil_r, Hw. destruct Hp as (? & ? & ?).
    repeat split; try (by repeat constructor); try assumption;
      try (intros; cbn [length]; lia); try (intros; discriminate).
  - specialize (IH (i - 1) (after (iteration me ex jobs timeout w))).
    cbv zeta in IH. destruct IH as (IHall & IHp & IHle & IHend & IHex).
    rewrite waits_app, Hw. split; [| split; [| split; [| split]]].
    + constructor; [reflexivity | exact IHall].
    + eapply same_pool_trans; eassumption.
    + intros Hi. cbn [app length]. specialize (IHle ltac:(lia)). lia.
    + intros Hi Hfuel. apply IHend; lia.
    + intros Hex. cbn [app length]. specialize (IHex Hex). lia.
  - rewrite Hw. destruct Hp as (? & ? & ?).
    repeat split; try (by repeat constructor); try assumption;
      try (intros; cbn [length]; lia); try (intros; discriminate).
Qed.

End Iteration.

(** ** Exhaustion *)

Lemma run_of_runnable (work : WorkItem) (w : World) :
  runnable w (future work) ->
  exists x, x <> PENDING /\ x <> CANCELLED /\
    outcome (WorkItem.run work w) = Ok tt /\
    after (WorkItem.run work w) = with_futures (<[future work := x]> (futures w)) w.
Proof.
  intros [Hp | Hc].
  - rewrite (run_when_pending work w Hp). eexists. repeat split; discriminate.
  - rewrite (run_when_cancelled work w Hc). eexists. repeat split; discriminate.
Qed.



(** ** [thread_worker] *)

Section Worker.

Variables (me : nat) (ex : ExecutorRef) (jobs : QueueRef) (timeout maximum : Z).

Lemma thread_worker_reply (fuel : nat) (w : World) :
  thread_worker fuel me ex jobs timeout maximum w =
  let r0 := while_i fuel me ex jobs timeout (maximum + 1) w in
  match exit_of r0 with
  | None => mkReply (Ok None) (after r0) (emitted r0 ++ fatal_log r0)
  | Some why =>
      if collected (after r0)
      then mkReply (Ok (Some why)) (after r0) (emitted r0 ++ fatal_log r0)
      else mkReply (Ok (Some why)) (without_thread me (after r0))
             ((emitted r0 ++ fatal_log r0) ++ [ThreadsDiscard me])
  end.
Proof.
  unfold thread_worker, exit_of, fatal_log, deref, threads_discard, without_thread.
  monad_unfold. cbv zeta.
  destruct (outcome (while_i fuel me ex jobs timeout (maximum + 1) w)) as [[why |] | e];
    reply_simpl; rewrite ?app_nil_r; try reflexivity;
    destruct (collected (after (while_i fuel me ex jobs timeout (maximum + 1) w)));
    reply_simpl; rewrite ?app_nil_r; reflexivity.
Qed.

(** The waits of the worker are those of its loop, started at
    [maximum + 1]. *)
Lemma thread_worker_waits (fuel : nat) (w : World) :
  waits (emitted (thread_worker fuel me ex jobs timeout maximum w)) =
  waits (emitted (while_i fuel me ex jobs timeout (maximum + 1) w)).
Proof.
  rewrite thread_worker_reply. cbv zeta. unfold exit_of, fatal_log.
  destruct (outcome (while_i fuel me ex jobs timeout (maximum + 1) w)) as [[why |] | e];
    try destruct (collected (after (while_i fuel me ex jobs timeout (maximum + 1) w)));
    reply_simpl; rewrite ?waits_app; cbn [waits List.filter is_wait];
    rewrite ?app_nil_r; reflexivity.
Qed.


End Worker.

(** ** [_spawn] *)

Lemma next_thread_is_new (w : World) :
  (next_thread w ∉ _threads (executor w)) /\ (next_thread w ∉ dom (thread_objects w)).
Proof.
  pose proof (is_fresh (dom (thread_objects w) ∪ _threads (executor w))) as Hfresh.
  fold (next_thread w) in Hfresh. set_solver.
Qed.

Lemma spawn_start_reply (w : World) :
  ScalingPoolExecutor.spawn_start w =
  mkReply (Ok (next_thread w))
    (with_thread_objects
       (<[next_thread w := worker_thread (executor w)]> (thread_objects w)) w)
    [ThreadStart (next_thread w)].
Proof.
  unfold ScalingPoolExecutor.spawn_start, Threading.Thread, Threading.set_daemon,
    Threading.start.
  monad_unfold. reply_simpl. fold (next_thread w).
  cbn [thread_objects with_thread_objects executor].
  rewrite !alter_insert_eq. reflexivity.
Qed.

Lemma spawn_register_reply (t : nat) (w : World) :
  ScalingPoolExecutor.spawn_register t w =
  mkReply (Ok tt)
    (with_executor (with_threads ({[t]} ∪ _threads (executor w)) (executor w)) w)
    [Acquire _management_lock; ThreadsAdd t; Release _management_lock].
Proof. reflexivity. Qed.

Lemma spawn_reply (w : World) :
  ScalingPoolExecutor._spawn w =
  mkReply (Ok tt)
    (with_executor
       (with_threads ({[next_thread w]} ∪ _threads (executor w)) (executor w))
       (with_thread_objects
          (<[next_thread w := worker_thread (executor w)]> (thread_objects w)) w))
    [ThreadStart (next_thread w); Acquire _management_lock;
     ThreadsAdd (next_thread w); Release _management_lock].
Proof.
  unfold ScalingPoolExecutor._spawn, bind.
  rewrite spawn_start_reply. reply_simpl. rewrite spawn_register_reply. reflexivity.
Qed.

(** A started thread runs [thread_worker] on the arguments it was built with,
    in their order. *)
Lemma run_thread_started (fuel t : nat) (w : World) (a1 : ExecutorRef) (a2 : QueueRef)
    (a3 a4 : Z) (d : bool) :
  thread_objects w !! t =
    Some {| thread_args := (a1, a2, a3, a4); daemon := d; started := true |} ->
  run_thread fuel t w = thread_worker fuel t a1 a2 a3 a4 w.
Proof.
  intros Hth. unfold run_thread, bind, gets. reply_simpl. rewrite Hth.
  destruct (thread_worker fuel t a1 a2 a3 a4 w) as [o w' tr]. reflexivity.
Qed.

(** ** [shutdown] *)

Lemma with_queue_twice (q1 q2 : list (option WorkItem)) (w : World) :
  with_queue q2 (with_queue q1 w) = with_queue q2 w.
Proof. reflexivity. Qed.

Lemma for_range_put_sentinels (n : nat) : forall w : World,
  for_range n (Queue.put None) w =
  mkReply (Ok tt) (with_queue (_work_queue w ++ replicate n None) w)
    (replicate n (QueuePut None)).
Proof.
  induction n as [| n IH]; intros w; cbn [for_range replicate].
  - unfold ret. rewrite app_nil_r. destruct w; reflexivity.
  - unfold bind at 1.
    change (Queue.put None w)
      with (mkReply (Ok tt) (with_queue (_work_queue w ++ [None]) w) [QueuePut None]).
    reply_simpl. rewrite IH. reply_simpl.
    cbn [_work_queue with_queue]. rewrite with_queue_twice, <- app_assoc. reflexivity.
Qed.

Lemma for_each_join (ts : list nat) (w : World) :
  for_each ts Threading.join w = mkReply (Ok tt) w (ThreadJoin <$> ts).
Proof.
  induction ts as [| t ts IH]; cbn [for_each fmap list_fmap]; [reflexivity |].
  unfold bind at 1.
  change (Threading.join t w) with (mkReply (Ok tt) w [ThreadJoin t]).
  reply_simpl. rewrite IH. reflexivity.
Qed.

Lemma shutdown_reply (wait : bool) (w : World) :
  ScalingPoolExecutor.shutdown wait w =
  mkReply (Ok tt)
    (with_queue (_work_queue w ++ replicate (size (_threads (executor w))) None)
       (stopping w))
    (shutdown_trace wait (elements (_threads (executor w)))).
Proof.
  unfold ScalingPoolExecutor.shutdown, shutdown_trace.
  erewrite bind_ok; cycle 1.
  { rewrite with_lock_reply.
    erewrite bind_ok by reflexivity. erewrite bind_ok by reflexivity.
    rewrite for_range_put_sentinels. reply_simpl. reflexivity. }
  fold (stopping w).
  change (length (elements (_threads (executor w)))) with (size (_threads (executor w))).
  cbn [_threads executor stopping with_executor with_shutdown].
  destruct wait.
  - erewrite bind_ok by reflexivity. rewrite for_each_join. reply_simpl.
    cbn [_threads executor with_queue stopping with_executor with_shutdown].
    rewrite <- app_assoc. reflexivity.
  - unfold ret. reply_simpl. rewrite app_nil_r. reflexivity.
Qed.

Lemma starts_shutdown_trace (wait : bool) (ts : list nat) :
  starts (shutdown_trace wait ts) = [].
Proof.
  unfold shutdown_trace, starts. cbn [List.filter is_start].
  rewrite List.filter_app. cbn [List.filter is_start].
  assert (Hputs : forall n, List.filter is_start (replicate n (QueuePut None)) = []).
  { induction n as [| n IH]; [reflexivity | exact IH]. }
  rewrite Hputs. destruct wait; [| reflexivity].
  induction ts as [| t ts IH]; [reflexivity | exact IH].
Qed.

(** ** The scaling adjustment *)



Lemma optimum_workers_reply (w : World) :
  ScalingPoolExecutor._optimum_workers w =
  if divisor (executor w) =? 0
  then mkReply (Exc ZeroDivisionError) w []
  else mkReply (Ok (optimum w)) w [].
Proof.
  unfold ScalingPoolExecutor._optimum_workers, Queue.qsize. monad_unfold. reply_simpl.
  destruct (divisor (executor w) =? 0); reflexivity.
Qed.


(** What [n] calls of [_spawn] in a row come to: [n] new threads started and
    in the set, and nothing else of the pool touched. *)
Lemma for_range_spawn (n : nat) : forall w : World,
  let r := for_range n ScalingPoolExecutor._spawn w in
  outcome r = Ok tt /\
  size (_threads (executor (after r))) = (size (_threads (executor w)) + n)%nat /\
  _threads (executor w) ⊆ _threads (executor (after r)) /\
  length (starts (emitted r)) = n /\
  same_settings (executor w) (executor (after r)) /\
  _work_queue (after r) = _work_queue w /\
  futures (after r) = futures w /\
  collected (after r) = collected w.
Proof.
  induction n as [| n IH]; intros w; cbn [for_range].
  { cbv zeta. unfold ret. reply_simpl. repeat split; [lia | reflexivity]. }
  cbv zeta. erewrite bind_ok by apply spawn_reply. reply_simpl.
  destruct (next_thread_is_new w) as [Hnew _].
  match goal with |- context [for_range n _ ?w1] => specialize (IH w1) end.
  cbv zeta in IH. destruct IH as (Hok & Hsize & Hsub & Hstarts & Hset & Hq & Hf & Hc).
  cbn [executor with_executor with_thread_objects _threads with_threads _work_queue
       futures collected] in Hsize, Hsub, Hq, Hf, Hc.
  split; [exact Hok |]. split; [| split; [| split; [| split]]].
  - rewrite Hsize, size_union, size_singleton by set_solver. lia.
  - set_solver.
  - unfold starts in *. cbn [List.filter is_start length]. rewrite Hstarts. reflexivity.
  - destruct Hset as (H1 & H2 & H3 & H4). repeat split; assumption.
  - repeat split; assumption.
Qed.

Lemma adjust_with_zero_divisor (w : World) :
  divisor (executor w) = 0 ->
  ScalingPoolExecutor._adjust_thread_count w = mkReply (Exc ZeroDivisionError) w [].
Proof.
  intros Hzero. unfold ScalingPoolExecutor._adjust_thread_count.
  erewrite bind_ok by reflexivity. reply_simpl.
  erewrite bind_exc; [reflexivity |].
  rewrite optimum_workers_reply, Hzero. reflexivity.
Qed.

(** With a divisor other than zero the adjustment returns, and touches
    neither the queue nor the futures nor the executor's settings. *)
Lemma adjust_frame (w : World) :
  divisor (executor w) <> 0 ->
  let r := ScalingPoolExecutor._adjust_thread_count w in
  outcome r = Ok tt /\
  _work_queue (after r) = _work_queue w /\
  futures (after r) = futures w /\
  same_settings (executor w) (executor (after r)).
Proof.
  intros Hdiv. cbv zeta. apply Z.eqb_neq in Hdiv.
  assert (Hopt : ScalingPoolExecutor._optimum_workers w = mkReply (Ok (optimum w)) w []).
  { rewrite optimum_workers_reply, Hdiv. reflexivity. }
  unfold ScalingPoolExecutor._adjust_thread_count.
  erewrite bind_ok by reflexivity. erewrite bind_ok by exact Hopt. reply_simpl.
  destruct (_ <? _).
  - erewrite bind_ok by exact Hopt. erewrite bind_ok by reflexivity. reply_simpl.
    destruct (for_range_spawn (Z.to_nat (optimum w - Z.of_nat (size (_threads (executor w))))) w)
      as (Hok & _ & _ & _ & Hset & Hq & Hf & _).
    repeat split; try assumption; apply Hset.
  - unfold ret. reply_simpl. repeat split.
Qed.

(** ** [submit] *)

Lemma future_new_reply (w : World) :
  Future.new w =
  mkReply (Ok (next_future w)) (with_futures (<[next_future w := PENDING]> (futures w)) w) [].
Proof. reflexivity. Qed.

Lemma queue_put_reply (item : option WorkItem) (w : World) :
  Queue.put item w =
  mkReply (Ok tt) (with_queue (_work_queue w ++ [item]) w) [QueuePut (future <$> item)].
Proof. reflexivity. Qed.

Lemma submit_refused (fn : Callable) (args : list PyVal) (kwargs : list (string * PyVal))
    (w : World) :
  _shutdown (executor w) = true ->
  ScalingPoolExecutor.submit fn args kwargs w =
  mkReply (Exc (RuntimeError "cannot schedule new futures after shutdown")) w [].
Proof.
  intros Hdown. unfold ScalingPoolExecutor.submit.
  erewrite bind_ok by reflexivity. rewrite Hdown. reflexivity.
Qed.

Lemma submit_accepted (fn : Callable) (args : list PyVal) (kwargs : list (string * PyVal))
    (w : World) :
  _shutdown (executor w) = false ->
  ScalingPoolExecutor.submit fn args kwargs w =
  let r := ScalingPoolExecutor._adjust_thread_count (enqueued fn args kwargs w) in
  mkReply (match outcome r with Ok _ => Ok (next_future w) | Exc e => Exc e end)
    (after r) (QueuePut (Some (next_future w)) :: emitted r).
Proof.
  intros Hup. unfold ScalingPoolExecutor.submit.
  erewrite bind_ok by reflexivity. rewrite Hup. reply_simpl.
  erewrite bind_ok by apply future_new_reply. reply_simpl.
  erewrite bind_ok by apply queue_put_reply. reply_simpl.
  cbn [_work_queue with_futures fmap option_fmap option_map future WorkItem.__init__].
  fold (enqueued fn args kwargs w). cbv zeta.
  unfold bind.
  destruct (outcome (ScalingPoolExecutor._adjust_thread_count (enqueued fn args kwargs w)));
    reply_simpl; rewrite ?app_nil_r; reflexivity.
Qed.

(** ** Construction and configuration *)

Lemma init_reply (workers divisor timeout : Z) (w : World) :
  0 < workers ->
  ScalingPoolExecutor.__init__ workers divisor timeout w =
  mkReply (Ok tt) (built workers divisor timeout w) [AtexitRegister].
Proof.
  intros Hpos. unfold ScalingPoolExecutor.__init__, ScalingPoolExecutor.super__init__.
  erewrite bind_ok by reflexivity. reply_simpl.
  destruct (Z.leb_spec workers 0) as [Hle | _]; [lia |].
  erewrite bind_ok by reflexivity. reflexivity.
Qed.


Lemma startup_reply (self : DynamicManager.t) (w : World) :
  0 < DynamicManager.workers self ->
  DynamicManager.startup self w =
  mkReply
    (Ok {| DynamicManager.workers := DynamicManager.workers self;
           DynamicManager.divisor := DynamicManager.divisor self;
           DynamicManager.timeout := DynamicManager.timeout self;
           DynamicManager.executor := Some the_executor;
           DynamicManager.transport := DynamicManager.transport self |})
    (built (DynamicManager.workers self) (DynamicManager.divisor self)
       (DynamicManager.timeout self) w)
    [Log INFO "Dynamic manager starting up.";
     Log DEBUG "Initializing transport queue.";
     TransportStartup;
     Log DEBUG ("Starting thread pool with " +:+ pretty (DynamicManager.workers self) +:+
                " workers.");
     AtexitRegister;
     Log INFO "Dynamic manager ready."].
Proof.
  intros Hworkers. unfold DynamicManager.startup.
  do 4 (erewrite bind_ok by reflexivity; reply_simpl).
  erewrite bind_ok by (apply init_reply; exact Hworkers). reply_simpl.
  erewrite bind_ok by reflexivity. reflexivity.
Qed.

(** ** The pool in use *)

Lemma queue_ok_ext (w w' : World) :
  _work_queue w' = _work_queue w -> futures w' = futures w ->
  queue_ok w -> queue_ok w'.
Proof.
  unfold queue_ok, queued_futures, runnable, future_of.
  intros -> ->. trivial.
Qed.

Lemma dom_store_mono (m : gmap nat Future) (f g : nat) (x : Future) :
  g ∈ dom m -> g ∈ dom (<[f := x]> m).
Proof. intros Hg. rewrite dom_insert_L. by apply elem_of_union_r. Qed.

Lemma queue_ok_store (w : World) (f : nat) (x : Future) :
  f ∉ queued_futures w \/ x = PENDING \/ x = CANCELLED ->
  queue_ok w -> queue_ok (with_futures (<[f := x]> (futures w)) w).
Proof.
  intros Hx [Hnd Hall]. split; [exact Hnd |].
  intros g Hg. change (queued_futures (with_futures _ w)) with (queued_futures w) in Hg.
  destruct (Hall g Hg) as [Hdom Hrun]. split.
  - cbn [futures with_futures]. by apply dom_store_mono.
  - unfold runnable. rewrite future_of_store.
    destruct (decide (f = g)) as [-> | Hne]; [| exact Hrun].
    destruct Hx as [Hx | Hx]; [contradiction | exact Hx].
Qed.

Lemma queue_ok_tail (w : World) (item : option WorkItem) (rest : list (option WorkItem)) :
  _work_queue w = item :: rest -> queue_ok w -> queue_ok (with_queue rest w).
Proof.
  intros Hq [Hnd Hall]. unfold queue_ok, queued_futures in *.
  rewrite Hq in Hnd, Hall. cbn [_work_queue with_queue].
  destruct item as [item |]; cbn [omap list_omap fmap option_fmap option_map] in Hnd, Hall.
  - apply NoDup_cons in Hnd as [_ Hnd]. split; [exact Hnd |].
    intros f Hf. apply Hall. by apply list_elem_of_further.
  - split; assumption.
Qed.

Lemma queue_ok_enqueued (fn : Callable) (args : list PyVal) (kwargs : list (string * PyVal))
    (w : World) :
  queue_ok w -> queue_ok (enqueued fn args kwargs w).
Proof.
  intros [Hnd Hall].
  assert (Hnew : next_future w ∉ queued_futures w).
  { intros Hin. destruct (Hall _ Hin) as [Hdom _].
    revert Hdom. unfold next_future. apply is_fresh. }
  unfold queue_ok, queued_futures, enqueued. cbn [_work_queue with_queue].
  rewrite omap_app. cbn [omap list_omap fmap option_fmap option_map future WorkItem.__init__].
  split.
  - apply NoDup_app. split; [exact Hnd |]. split; [| apply NoDup_singleton].
    intros f Hf ->%list_elem_of_singleton. contradiction.
  - intros f [Hf | ->%list_elem_of_singleton]%elem_of_app.
    + destruct (Hall f Hf) as [Hdom Hrun]. split.
      * cbn [futures with_futures with_queue]. by apply dom_store_mono.
      * unfold runnable, future_of in *. cbn [futures with_futures with_queue].
        rewrite lookup_insert_ne; [exact Hrun |]. intros <-. contradiction.
    + split.
      * cbn [futures with_futures with_queue]. rewrite dom_insert_L.
        apply elem_of_union_l, elem_of_singleton. reflexivity.
      * left. unfold future_of. cbn [futures with_futures with_queue].
        rewrite lookup_insert_eq. reflexivity.
Qed.

Lemma cancel_keeps_queue_ok (f : nat) (w : World) :
  queue_ok w -> queue_ok (after (Future.cancel f w)).
Proof.
  intros Hok. unfold Future.cancel, Future.store. monad_unfold. reply_simpl.
  destruct (future_of w f); reply_simpl; try exact Hok.
  apply queue_ok_store; auto.
Qed.

Lemma queued_futures_sentinels (q : list (option WorkItem)) (n : nat) :
  omap (fmap future) (q ++ replicate n None) = omap (fmap future) q.
Proof.
  rewrite omap_app.
  assert (Hnone : omap (fmap (M := option) future) (replicate n None) = []).
  { induction n as [| n IH]; [reflexivity | exact IH]. }
  rewrite Hnone. apply app_nil_r.
Qed.

Lemma shutdown_keeps_queue_ok (wait : bool) (w : World) :
  queue_ok w -> queue_ok (after (ScalingPoolExecutor.shutdown wait w)).
Proof.
  intros [Hnd Hall]. rewrite shutdown_reply. reply_simpl.
  unfold queue_ok, queued_futures, runnable, future_of in *.
  cbn [_work_queue futures with_queue stopping with_executor].
  rewrite queued_futures_sentinels. split; assumption.
Qed.

Lemma run_keeps_queue_ok (work : WorkItem) (w : World) :
  future work ∉ queued_futures w ->
  queue_ok w -> queue_ok (after (WorkItem.run work w)).
Proof.
  intros Hout Hok.
  destruct (future_of w (future work)) eqn:Hst.
  1: rewrite (run_when_pending work w Hst).
  3: rewrite (run_when_cancelled work w Hst).
  2,4,5: rewrite (run_when_unexpected work w) by congruence.
  all: reply_simpl; try exact Hok; apply queue_ok_store; auto.
Qed.

Lemma iteration_keeps_queue_ok (me : nat) (ex : ExecutorRef) (jobs : QueueRef)
    (timeout : Z) (w : World) :
  queue_ok w -> queue_ok (after (iteration me ex jobs timeout w)).
Proof.
  intros Hok.
  destruct (Z.lt_ge_cases timeout 0) as [Hneg | Hpos].
  { rewrite iteration_refused by assumption. exact Hok. }
  destruct (_work_queue w) as [| [work |] rest] eqn:Hq.
  - rewrite iteration_starved by assumption. exact Hok.
  - rewrite (iteration_work me ex jobs timeout w work rest) by assumption.
    cbv zeta. reply_simpl. apply run_keeps_queue_ok.
    + destruct Hok as [Hnd _]. unfold queued_futures in *. rewrite Hq in Hnd.
      cbn [omap list_omap fmap option_fmap option_map] in Hnd.
      apply NoDup_cons in Hnd as [Hnotin _]. exact Hnotin.
    + by eapply queue_ok_tail.
  - destruct (collected w || _shutdown (executor w)) eqn:Hstop.
    + rewrite (iteration_sentinel_stop me ex jobs timeout w rest) by assumption.
      by eapply queue_ok_tail.
    + apply orb_false_iff in Hstop as [Hc Hs].
      rewrite (iteration_sentinel_ignored me ex jobs timeout w rest) by assumption.
      by eapply queue_ok_tail.
Qed.

Lemma while_i_keeps_queue_ok (me : nat) (ex : ExecutorRef) (jobs : QueueRef)
    (timeout : Z) (fuel : nat) : forall (i : Z) (w : World),
  queue_ok w -> queue_ok (after (while_i fuel me ex jobs timeout i w)).
Proof.
  induction fuel as [| fuel IH]; intros i w Hok; cbn [while_i]; [exact Hok |].
  destruct (i =? 0); [exact Hok |].
  cbv zeta. unfold bind.
  pose proof (iteration_keeps_queue_ok me ex jobs timeout w Hok) as Hit.
  destruct (outcome (iteration me ex jobs timeout w)) as [[why |] | e]; reply_simpl;
    try exact Hit.
  apply IH. exact Hit.
Qed.

Lemma thread_worker_keeps_queue_ok (fuel me : nat) (ex : ExecutorRef) (jobs : QueueRef)
    (timeout maximum : Z) (w : World) :
  queue_ok w -> queue_ok (after (thread_worker fuel me ex jobs timeout maximum w)).
Proof.
  intros Hok. rewrite thread_worker_reply. cbv zeta.
  pose proof (while_i_keeps_queue_ok me ex jobs timeout fuel (maximum + 1) w Hok) as Hloop.
  destruct (exit_of _); [destruct (collected _) |]; reply_simpl; exact Hloop.
Qed.

Lemma run_thread_reply (fuel t : nat) (w : World) :
  run_thread fuel t w = mkReply (Ok None) w [] \/
  exists a1 a2 a3 a4, run_thread fuel t w = thread_worker fuel t a1 a2 a3 a4 w.
Proof.
  unfold run_thread, bind, gets. reply_simpl.
  destruct (thread_objects w !! t) as [[[[[a1 a2] a3] a4] d [|]] |]; auto.
  right. exists a1, a2, a3, a4.
  destruct (thread_worker fuel t a1 a2 a3 a4 w); reflexivity.
Qed.

Lemma run_thread_keeps_queue_ok (fuel t : nat) (w : World) :
  queue_ok w -> queue_ok (after (run_thread fuel t w)).
Proof.
  intros Hok. destruct (run_thread_reply fuel t w) as [-> | (a1 & a2 & a3 & a4 & ->)].
  - exact Hok.
  - by apply thread_worker_keeps_queue_ok.
Qed.

Lemma adjust_keeps_pool_ok (w : World) :
  pool_ok w -> pool_ok (after (ScalingPoolExecutor._adjust_thread_count w)).
Proof.
  intros [Hsize Hq].
  destruct (Z.eq_dec (divisor (executor w)) 0) as [Hzero | Hdiv].
  { rewrite adjust_with_zero_divisor by assumption. split; assumption. }
  destruct (adjust_frame w Hdiv) as (_ & Hqueue & Hfut & Hset).
  split; [| by eapply queue_ok_ext; eauto].
  destruct Hset as (-> & _).
  apply Z.eqb_neq in Hdiv.
  assert (Hopt : ScalingPoolExecutor._optimum_workers w = mkReply (Ok (optimum w)) w []).
  { rewrite optimum_workers_reply, Hdiv. reflexivity. }
  unfold ScalingPoolExecutor._adjust_thread_count.
  erewrite bind_ok by reflexivity. erewrite bind_ok by exact Hopt.
  fold (pool_size w). reply_simpl.
  destruct (Z.ltb_spec (pool_size w) (optimum w)) as [Hlt | Hge].
  - erewrite bind_ok by exact Hopt. erewrite bind_ok by reflexivity. reply_simpl.
    destruct (for_range_spawn (Z.to_nat (optimum w - pool_size w)) w)
      as (_ & Hgrown & _).
    unfold pool_size in *. rewrite Hgrown. unfold optimum in *. lia.
  - exact Hsize.
Qed.

Lemma submit_keeps_pool_ok (fn : Callable) (args : list PyVal)
    (kwargs : list (string * PyVal)) (w : World) :
  pool_ok w -> pool_ok (after (ScalingPoolExecutor.submit fn args kwargs w)).
Proof.
  intros Hok. destruct (_shutdown (executor w)) eqn:Hdown.
  - rewrite submit_refused by assumption. exact Hok.
  - rewrite submit_accepted by assumption. cbv zeta. reply_simpl.
    apply adjust_keeps_pool_ok. destruct Hok as [Hsize Hq].
    split; [exact Hsize | by apply queue_ok_enqueued].
Qed.

Lemma thread_worker_keeps_pool_ok (fuel me : nat) (ex : ExecutorRef) (jobs : QueueRef)
    (timeout maximum : Z) (w : World) :
  pool_ok w -> pool_ok (after (thread_worker fuel me ex jobs timeout maximum w)).
Proof.
  intros [Hsize Hq]. split; [| by apply thread_worker_keeps_queue_ok].
  rewrite thread_worker_reply. cbv zeta.
  destruct (while_i_trace me ex jobs timeout fuel (maximum + 1) w)
    as (_ & (Hex & _) & _).
  unfold pool_size in *.
  destruct (exit_of _); [destruct (collected _) |]; reply_simpl;
    unfold without_thread; cbn [executor with_executor _threads with_threads _max_workers];
    rewrite Hex; try exact Hsize.
  pose proof (subseteq_size (_threads (executor w) ∖ {[me]}) (_threads (executor w))
                ltac:(apply subseteq_difference_l; reflexivity)).
  lia.
Qed.

Lemma act_keeps_pool_ok (a : Action) (w : World) :
  pool_ok w -> pool_ok (after (act a w)).
Proof.
  intros Hok. destruct a as [fn args kwargs | f | wait | fuel t]; cbn [act].
  - unfold bind.
    pose proof (submit_keeps_pool_ok fn args kwargs w Hok) as Hsub.
    destruct (outcome (ScalingPoolExecutor.submit fn args kwargs w)); exact Hsub.
  - unfold bind.
    assert (Hc : pool_ok (after (Future.cancel f w))).
    { destruct Hok as [Hsize Hq]. split; [| by apply cancel_keeps_queue_ok].
      unfold Future.cancel, Future.store. monad_unfold. reply_simpl.
      destruct (future_of w f); exact Hsize. }
    destruct (outcome (Future.cancel f w)); exact Hc.
  - destruct Hok as [Hsize Hq]. split; [| by apply shutdown_keeps_queue_ok].
    rewrite shutdown_reply. exact Hsize.
  - unfold bind.
    assert (Hr : pool_ok (after (run_thread fuel t w))).
    { destruct (run_thread_reply fuel t w) as [-> | (a1 & a2 & a3 & a4 & ->)];
        [exact Hok | by apply thread_worker_keeps_pool_ok]. }
    destruct (outcome (run_thread fuel t w)); exact Hr.
Qed.

Lemma pool_is_pool_ok (workers divisor timeout : Z) :
  0 < workers -> pool_ok (pool workers divisor timeout).
Proof.
  intros Hpos. unfold pool. rewrite init_reply by assumption. reply_simpl.
  split.
  - unfold pool_size. cbn [built executor with_queue with_executor _threads _max_workers].
    rewrite size_empty. lia.
  - split; [apply NoDup_nil_2 |]. intros f Hf. apply elem_of_nil in Hf. contradiction.
Qed.

Lemma run_actions_keep_pool_ok (acts : list Action) : forall w : World,
  pool_ok w -> pool_ok (run_actions acts w).
Proof.
  induction acts as [| a acts IH]; intros w Hok; cbn [run_actions]; [exact Hok |].
  apply IH, act_keeps_pool_ok, Hok.
Qed.

Lemma reachable_pool_ok (w : World) : reachable w -> pool_ok w.
Proof.
  intros (workers & divisor & timeout & acts & Hpos & ->).
  apply run_actions_keep_pool_ok, pool_is_pool_ok, Hpos.
Qed.

(** However a pool is used, what a worker takes off its queue is a work item
    whose future is pending, or cancelled and not yet noted: [run] meets no
    other state. *)
Lemma taken_item_is_runnable (w : World) (item : WorkItem)
    (rest : list (option WorkItem)) :
  reachable w -> _work_queue w = Some item :: rest ->
  runnable (with_queue rest w) (future item).
Proof.
  intros Hreach Hq. destruct (reachable_pool_ok w Hreach) as [_ [_ Hall]].
  apply (Hall (future item)). unfold queued_futures. rewrite Hq.
  apply list_elem_of_here.
Qed.

(** ** What every use of the pool keeps *)

Section Keeping.

Variable I : World -> list Event -> Prop.

Lemma keeps_ret {A} (a : A) : keeps I (ret a).
Proof. intros w tr HI. unfold ret. reply_simpl. by rewrite app_nil_r. Qed.

Lemma keeps_raise {A} (e : PyExn) : keeps I (raise (A := A) e).
Proof. intros w tr HI. unfold raise. reply_simpl. by rewrite app_nil_r. Qed.

Lemma keeps_gets {A} (f : World -> A) : keeps I (gets f).
Proof. intros w tr HI. unfold gets. reply_simpl. by rewrite app_nil_r. Qed.

Lemma keeps_bind {A B} (m : M A) (k : A -> M B) :
  keeps I m -> (forall a, keeps I (k a)) -> keeps I (bind m k).
Proof.
  intros Hm Hk w tr HI. unfold bind. specialize (Hm w tr HI).
  destruct (outcome (m w)) as [a | e]; reply_simpl; [| exact Hm].
  rewrite app_assoc. by apply Hk.
Qed.

Lemma keeps_try {A B} (body : M A) (handler : PyExn -> option (M B)) (orelse : A -> M B) :
  keeps I body ->
  (forall e h, handler e = Some h -> keeps I h) ->
  (forall a, keeps I (orelse a)) ->
  keeps I (try_except_else body handler orelse).
Proof.
  intros Hbody Hh Helse w tr HI. unfold try_except_else. specialize (Hbody w tr HI).
  destruct (outcome (body w)) as [a | e]; reply_simpl.
  - rewrite app_assoc. by apply Helse.
  - destruct (handler e) as [h |] eqn:He; reply_simpl; [| exact Hbody].
    rewrite app_assoc. by eapply Hh.
Qed.

Lemma keeps_for_range (n : nat) (body : M unit) :
  keeps I body -> keeps I (for_range n body).
Proof.
  intros Hbody. induction n as [| n IH]; cbn [for_range].
  - apply keeps_ret.
  - apply keeps_bind; [exact Hbody | intros _; exact IH].
Qed.

Lemma keeps_for_each {A} (xs : list A) (body : A -> M unit) :
  (forall x, keeps I (body x)) -> keeps I (for_each xs body).
Proof.
  intros Hbody. induction xs as [| x xs IH]; cbn [for_each].
  - apply keeps_ret.
  - apply keeps_bind; [apply Hbody | intros _; exact IH].
Qed.

Lemma keeps_with_lock {A} (l : Lock) (m : M A) :
  keeps I (emit (Acquire l)) -> keeps I (emit (Release l)) -> keeps I m ->
  keeps I (with_lock l m).
Proof.
  intros Hacq Hrel Hm w tr HI. unfold with_lock. reply_simpl.
  specialize (Hacq w tr HI). unfold emit in Hacq. reply_simpl.
  specialize (Hm w _ Hacq). specialize (Hrel _ _ Hm). unfold emit in Hrel. reply_simpl.
  rewrite <- !app_assoc in Hrel. exact Hrel.
Qed.

Lemma keeps_if {A} (b : bool) (m1 m2 : M A) :
  keeps I m1 -> keeps I m2 -> keeps I (if b then m1 else m2).
Proof. destruct b; trivial. Qed.

End Keeping.

Section KeptByThePool.

Variable I : World -> list Event -> Prop.

(** [I] looks at the futures and at the calls and resolutions only, and the
    futures' own methods and [run] keep it. *)
Hypothesis I_quiet : forall w tr e, is_quiet e = true -> I w tr -> I w (tr ++ [e]).
Hypothesis I_frame : forall w w' tr, futures w' = futures w -> I w tr -> I w' tr.
Hypothesis I_new : keeps I Future.new.
Hypothesis I_cancel : forall f, keeps I (Future.cancel f).
Hypothesis I_run : forall work, keeps I (WorkItem.run work).

Lemma keeps_emit (e : Event) : is_quiet e = true -> keeps I (emit e).
Proof. intros Hq w tr HI. unfold emit. reply_simpl. by apply I_quiet. Qed.

Lemma keeps_modify (f : World -> World) :
  (forall w, futures (f w) = futures w) -> keeps I (modify f).
Proof.
  intros Hf w tr HI. unfold modify. reply_simpl. rewrite app_nil_r.
  by apply (I_frame w), HI.
Qed.

Ltac keeping := repeat first
  [ assumption
  | match goal with H : forall _, keeps _ _ |- _ => apply H end
  | apply keeps_ret | apply keeps_raise | apply keeps_gets
  | apply keeps_emit; reflexivity
  | apply keeps_modify; intros ?; reflexivity
  | apply keeps_for_range | apply keeps_with_lock | apply keeps_if
  | apply keeps_bind; [| intros ?] ].

Lemma keeps_put (item : option WorkItem) : keeps I (Queue.put item).
Proof. unfold Queue.put. keeping. Qed.

Lemma keeps_get (me : nat) (jobs : QueueRef) (block : bool) (bound : Z) :
  keeps I (Queue.get me jobs block bound).
Proof.
  unfold Queue.get. keeping.
  match goal with q : list (option WorkItem) |- _ => destruct q end; keeping.
Qed.

Lemma keeps_spawn : keeps I ScalingPoolExecutor._spawn.
Proof.
  unfold ScalingPoolExecutor._spawn, ScalingPoolExecutor.spawn_start,
    ScalingPoolExecutor.spawn_register, Threading.Thread, Threading.set_daemon,
    Threading.start, threads_add.
  keeping.
Qed.

Lemma keeps_optimum : keeps I ScalingPoolExecutor._optimum_workers.
Proof. unfold ScalingPoolExecutor._optimum_workers, Queue.qsize. keeping. Qed.

Lemma keeps_adjust : keeps I ScalingPoolExecutor._adjust_thread_count.
Proof.
  pose proof keeps_spawn. pose proof keeps_optimum.
  unfold ScalingPoolExecutor._adjust_thread_count, log_debug. keeping.
Qed.

Lemma keeps_submit (fn : Callable) (args : list PyVal) (kwargs : list (string * PyVal)) :
  keeps I (ScalingPoolExecutor.submit fn args kwargs).
Proof.
  pose proof keeps_adjust. pose proof keeps_put.
  unfold ScalingPoolExecutor.submit. keeping.
Qed.

Lemma keeps_shutdown (wait : bool) : keeps I (ScalingPoolExecutor.shutdown wait).
Proof.
  unfold ScalingPoolExecutor.shutdown. keeping.
  apply keeps_for_each. intros t. unfold Threading.join. keeping.
Qed.

Lemma keeps_iteration (me : nat) (ex : ExecutorRef) (jobs : QueueRef) (timeout : Z) :
  keeps I (iteration me ex jobs timeout).
Proof.
  unfold iteration, deref, log_debug. apply keeps_try.
  - apply keeps_bind; [apply keeps_get | intros [work |]]; keeping.
    match goal with r : option ScalingPoolExecutor |- _ => destruct r end; keeping.
  - intros e h. destruct (isinstance e "Empty"); [| discriminate].
    intros [= <-]. keeping.
  - intros [why | | work]; keeping.
Qed.

Lemma keeps_while_i (me : nat) (ex : ExecutorRef) (jobs : QueueRef) (timeout : Z)
    (fuel : nat) : forall i, keeps I (while_i fuel me ex jobs timeout i).
Proof.
  induction fuel as [| fuel IH]; intros i; cbn [while_i]; [apply keeps_ret |].
  apply keeps_if; [unfold log_debug; keeping |]. cbv zeta.
  apply keeps_bind; [apply keeps_iteration |].
  intros [why |]; [apply keeps_ret | apply IH].
Qed.

Lemma keeps_thread_worker (fuel me : nat) (ex : ExecutorRef) (jobs : QueueRef)
    (timeout maximum : Z) :
  keeps I (thread_worker fuel me ex jobs timeout maximum).
Proof.
  unfold thread_worker, deref, threads_discard, log_critical. cbv zeta.
  apply keeps_bind.
  - apply keeps_try; [apply keeps_while_i | | intros x; keeping].
    intros e h [= <-]. keeping.
  - intros [why |]; keeping.
    match goal with r : option ScalingPoolExecutor |- _ => destruct r end; keeping.
Qed.

Lemma keeps_run_thread (fuel t : nat) : keeps I (run_thread fuel t).
Proof.
  unfold run_thread. apply keeps_bind; [keeping |].
  intros [[[[[a1 a2] a3] a4] d [|]] |];
    first [apply keeps_thread_worker | apply keeps_ret].
Qed.

Lemma keeps_act (a : Action) : keeps I (act a).
Proof.
  destruct a as [fn args kwargs | f | wait | fuel t]; cbn [act].
  - apply keeps_bind; [apply keeps_submit | intros _; keeping].
  - apply keeps_bind; [apply I_cancel | intros _; keeping].
  - apply keeps_shutdown.
  - apply keeps_bind; [apply keeps_run_thread | intros _; keeping].
Qed.

(** Whatever is done with the pool keeps [I]. *)
Lemma kept_by_run_actions (acts : list Action) : forall w tr,
  I w tr -> I (run_actions acts w) (tr ++ trace_actions acts w).
Proof.
  induction acts as [| a acts IH]; intros w tr HI; cbn [run_actions trace_actions].
  - by rewrite app_nil_r.
  - rewrite app_assoc. apply IH, keeps_act, HI.
Qed.

End KeptByThePool.

(** ** Each future is resolved at most once *)

Lemma resolutions_app (f : nat) (tr1 tr2 : list Event) :
  resolutions f (tr1 ++ tr2) = resolutions f tr1 ++ resolutions f tr2.
Proof. apply omap_app. Qed.

Lemma resolutions_quiet (f : nat) (e : Event) :
  is_quiet e = true -> resolutions f [e] = [].
Proof. destruct e; try discriminate; reflexivity. Qed.

Lemma new_future_is_pending (w : World) : future_of w (next_future w) = PENDING.
Proof.
  unfold future_of.
  assert (Hnone : futures w !! next_future w = None).
  { apply not_elem_of_dom. unfold next_future. apply is_fresh. }
  rewrite Hnone. reflexivity.
Qed.

Lemma resolved_quiet (w : World) (tr : list Event) (e : Event) :
  is_quiet e = true -> resolved_as_stored w tr -> resolved_as_stored w (tr ++ [e]).
Proof.
  intros Hq Hres f. rewrite resolutions_app, (resolutions_quiet f e Hq), app_nil_r. apply Hres.
Qed.

Lemma resolved_frame (w w' : World) (tr : list Event) :
  futures w' = futures w -> resolved_as_stored w tr -> resolved_as_stored w' tr.
Proof. intros Hf Hres f. unfold future_of. rewrite Hf. apply Hres. Qed.

(** Storing a state that is not a finished one over another such state. *)
Lemma resolved_store_unfinished (w : World) (tr : list Event) (f : nat) (x : Future) :
  (forall o, x <> FINISHED o) -> (forall o, future_of w f <> FINISHED o) ->
  resolved_as_stored w tr ->
  resolved_as_stored (with_futures (<[f := x]> (futures w)) w) tr.
Proof.
  intros Hx Hold Hres g. rewrite future_of_store, (Hres g).
  destruct (decide (f = g)) as [<- | _]; [| reflexivity].
  destruct x; try (exfalso; eapply Hx; reflexivity);
    destruct (future_of w f); try (exfalso; eapply Hold; reflexivity); reflexivity.
Qed.

Lemma resolved_new : keeps resolved_as_stored Future.new.
Proof.
  intros w tr Hres. rewrite future_new_reply. reply_simpl. rewrite app_nil_r.
  apply resolved_store_unfinished; try discriminate; [| exact Hres].
  rewrite new_future_is_pending. discriminate.
Qed.

Lemma resolved_cancel (f : nat) : keeps resolved_as_stored (Future.cancel f).
Proof.
  intros w tr Hres. unfold Future.cancel, Future.store. monad_unfold. reply_simpl.
  destruct (future_of w f) eqn:Hst; reply_simpl; rewrite app_nil_r; try exact Hres.
  apply resolved_store_unfinished; try discriminate; [| exact Hres].
  rewrite Hst. discriminate.
Qed.

Lemma resolved_run (work : WorkItem) : keeps resolved_as_stored (WorkItem.run work).
Proof.
  intros w tr Hres.
  destruct (future_of w (future work)) eqn:Hst.
  1: rewrite (run_when_pending work w Hst).
  3: rewrite (run_when_cancelled work w Hst).
  2,4,5: rewrite (run_when_unexpected work w) by congruence.
  all: reply_simpl; rewrite ?app_nil_r; try exact Hres.
  - intros g. rewrite future_of_store, resolutions_app, (Hres g).
    destruct (decide (future work = g)) as [<- | Hne].
    + rewrite Hst. unfold resolutions.
      destruct (fn work (args work) (kwargs work)); cbn;
        rewrite decide_True by reflexivity; reflexivity.
    + assert (Hnone : resolutions g
        [Invoke (future work);
         resolve_event (future work) (fn work (args work) (kwargs work))] = []).
      { unfold resolutions.
        destruct (fn work (args work) (kwargs work)); cbn;
          rewrite decide_False by exact Hne; reflexivity. }
      rewrite Hnone. apply app_nil_r.
  - apply resolved_store_unfinished; try discriminate; [| exact Hres].
    rewrite Hst. discriminate.
Qed.

Lemma pool_has_no_futures (workers divisor timeout : Z) :
  futures (pool workers divisor timeout) = ∅.
Proof.
  unfold pool, ScalingPoolExecutor.__init__, ScalingPoolExecutor.super__init__.
  monad_unfold. reply_simpl. destruct (workers <=? 0); reflexivity.
Qed.

(** Whatever is done with a pool, the trace shows every future resolved at
    most once, and a finished future holds what the trace shows it was
    resolved with. *)
Lemma futures_resolved_at_most_once (workers divisor timeout : Z) (acts : list Action)
    (f : nat) :
  let w0 := pool workers divisor timeout in
  let tr := trace_actions acts w0 in
  (length (resolutions f tr) <= 1)%nat /\
  resolutions f tr =
    match future_of (run_actions acts w0) f with
    | FINISHED o => [o]
    | _ => []
    end.
Proof.
  cbv zeta.
  assert (Hstart : resolved_as_stored (pool workers divisor timeout) []).
  { intros g. unfold future_of. rewrite pool_has_no_futures, lookup_empty. reflexivity. }
  pose proof (kept_by_run_actions resolved_as_stored resolved_quiet resolved_frame
                resolved_new resolved_cancel resolved_run acts _ _ Hstart f) as Hend.
  cbn [app] in Hend. rewrite Hend.
  split; [| reflexivity]. destruct (future_of _ f); cbn; lia.
Qed.

(** ** A cancelled future is never called *)

Lemma cancelled_is_stored (w : World) (f : nat) :
  Future.cancelled (future_of w f) = true -> f ∈ dom (futures w).
Proof.
  unfold future_of. intros Hc. apply elem_of_dom.
  destruct (futures w !! f); [eauto | discriminate].
Qed.

Section Cancelled.

Variable f : nat.

Lemma uncalled_quiet (w : World) (tr : list Event) (e : Event) :
  is_quiet e = true -> cancelled_uncalled f w tr -> cancelled_uncalled f w (tr ++ [e]).
Proof.
  intros Hq [Hc Hn]. split; [exact Hc |].
  intros [Hin | Heq%list_elem_of_singleton]%elem_of_app; [contradiction |].
  subst e. discriminate.
Qed.

Lemma uncalled_frame (w w' : World) (tr : list Event) :
  futures w' = futures w -> cancelled_uncalled f w tr -> cancelled_uncalled f w' tr.
Proof. unfold cancelled_uncalled, future_of. intros ->. trivial. Qed.

Lemma uncalled_store_other (w : World) (tr : list Event) (g : nat) (x : Future) :
  g <> f -> cancelled_uncalled f w tr ->
  cancelled_uncalled f (with_futures (<[g := x]> (futures w)) w) tr.
Proof.
  intros Hne [Hc Hn]. split; [| exact Hn].
  rewrite future_of_store, decide_False by exact Hne. exact Hc.
Qed.

Lemma uncalled_new : keeps (cancelled_uncalled f) Future.new.
Proof.
  intros w tr Hcu. rewrite future_new_reply. reply_simpl. rewrite app_nil_r.
  apply uncalled_store_other; [| exact Hcu].
  intros Heq. destruct Hcu as [Hc _]. rewrite <- Heq, new_future_is_pending in Hc.
  discriminate.
Qed.

Lemma uncalled_cancel (g : nat) : keeps (cancelled_uncalled f) (Future.cancel g).
Proof.
  intros w tr Hcu. unfold Future.cancel, Future.store. monad_unfold. reply_simpl.
  destruct (future_of w g) eqn:Hst; reply_simpl; rewrite app_nil_r; try exact Hcu.
  apply uncalled_store_other; [| exact Hcu].
  intros ->. destruct Hcu as [Hc _]. rewrite Hst in Hc. discriminate.
Qed.

Lemma uncalled_run (work : WorkItem) : keeps (cancelled_uncalled f) (WorkItem.run work).
Proof.
  intros w tr Hcu.
  destruct (future_of w (future work)) eqn:Hst.
  1: rewrite (run_when_pending work w Hst).
  3: rewrite (run_when_cancelled work w Hst).
  2,4,5: rewrite (run_when_unexpected work w) by congruence.
  all: reply_simpl; rewrite ?app_nil_r; try exact Hcu.
  - assert (Hne : future work <> f).
    { intros Heq. destruct Hcu as [Hc _]. rewrite <- Heq, Hst in Hc. discriminate. }
    destruct (uncalled_store_other w tr (future work)
                (FINISHED (fn work (args work) (kwargs work))) Hne Hcu) as [Hc Hn].
    split; [exact Hc |].
    intros [Hin | Hin]%elem_of_app; [contradiction |].
    apply elem_of_cons in Hin as [[= Heq] | Hin]; [congruence |].
    apply list_elem_of_singleton in Hin.
    destruct (fn work (args work) (kwargs work)); discriminate.
  - destruct Hcu as [Hc Hn]. split; [| exact Hn].
    rewrite future_of_store. destruct (decide (future work = f)); [reflexivity | exact Hc].
Qed.

(** Once a future stands cancelled, its callable is never called, whatever
    is done with the pool afterwards, and it stays cancelled. *)
Lemma cancelled_future_is_never_called (acts : list Action) (w : World) :
  Future.cancelled (future_of w f) = true ->
  (Invoke f ∉ trace_actions acts w) /\
  Future.cancelled (future_of (run_actions acts w) f) = true.
Proof.
  intros Hc.
  assert (Hstart : cancelled_uncalled f w []).
  { split; [exact Hc | apply not_elem_of_nil]. }
  destruct (kept_by_run_actions (cancelled_uncalled f) uncalled_quiet uncalled_frame
              uncalled_new uncalled_cancel uncalled_run acts _ _ Hstart) as [Hend Hno].
  split; assumption.
Qed.

End Cancelled.

(** ** A finished future stays as it is *)

Section Finished.

Variables (f : nat) (o : Outcome).

Lemma finished_quiet (w : World) (tr : list Event) (e : Event) :
  is_quiet e = true -> finished_for_good f o w tr -> finished_for_good f o w (tr ++ [e]).
Proof.
  intros Hq [Hf Hn]. split; [exact Hf |].
  rewrite resolutions_app, Hn, (resolutions_quiet f e Hq). reflexivity.
Qed.

Lemma finished_frame (w w' : World) (tr : list Event) :
  futures w' = futures w -> finished_for_good f o w tr -> finished_for_good f o w' tr.
Proof. unfold finished_for_good, future_of. intros ->. trivial. Qed.

Lemma finished_store_other (w : World) (tr : list Event) (g : nat) (x : Future) :
  g <> f -> finished_for_good f o w tr ->
  finished_for_good f o (with_futures (<[g := x]> (futures w)) w) tr.
Proof.
  intros Hne [Hf Hn]. split; [| exact Hn].
  rewrite future_of_store, decide_False by exact Hne. exact Hf.
Qed.

Lemma finished_new : keeps (finished_for_good f o) Future.new.
Proof.
  intros w tr Hfin. rewrite future_new_reply. reply_simpl. rewrite app_nil_r.
  apply finished_store_other; [| exact Hfin].
  intros Heq. destruct Hfin as [Hf _]. rewrite <- Heq, new_future_is_pending in Hf.
  discriminate.
Qed.

Lemma finished_cancel (g : nat) : keeps (finished_for_good f o) (Future.cancel g).
Proof.
  intros w tr Hfin. unfold Future.cancel, Future.store. monad_unfold. reply_simpl.
  destruct (future_of w g) eqn:Hst; reply_simpl; rewrite app_nil_r; try exact Hfin.
  apply finished_store_other; [| exact Hfin].
  intros ->. destruct Hfin as [Hf _]. rewrite Hst in Hf. discriminate.
Qed.

Lemma finished_run (work : WorkItem) : keeps (finished_for_good f o) (WorkItem.run work).
Proof.
  intros w tr Hfin.
  assert (Hne : future_of w (future work) = PENDING \/ future_of w (future work) = CANCELLED ->
                future work <> f).
  { intros Hst Heq. destruct Hfin as [Hf _]. rewrite Heq, Hf in Hst.
    destruct Hst; discriminate. }
  destruct (future_of w (future work)) eqn:Hst.
  1: rewrite (run_when_pending work w Hst).
  3: rewrite (run_when_cancelled work w Hst).
  2,4,5: rewrite (run_when_unexpected work w) by congruence.
  all: reply_simpl; rewrite ?app_nil_r; try exact Hfin.
  - specialize (Hne (or_introl eq_refl)).
    destruct (finished_store_other w tr (future work)
                (FINISHED (fn work (args work) (kwargs work))) Hne Hfin) as [Hf Hn].
    split; [exact Hf |]. rewrite resolutions_app, Hn. unfold resolutions.
    destruct (fn work (args work) (kwargs work)); cbn;
      rewrite decide_False by exact Hne; reflexivity.
  - specialize (Hne (or_intror eq_refl)). by apply finished_store_other.
Qed.

(** Once a future is finished, nothing that is done with the pool resolves
    it again or changes what it holds. *)
Lemma finished_future_stays (acts : list Action) (w : World) :
  future_of w f = FINISHED o ->
  resolutions f (trace_actions acts w) = [] /\
  future_of (run_actions acts w) f = FINISHED o.
Proof.
  intros Hf.
  assert (Hstart : finished_for_good f o w []) by (split; [exact Hf | reflexivity]).
  destruct (kept_by_run_actions (finished_for_good f o) finished_quiet finished_frame
              finished_new finished_cancel finished_run acts _ _ Hstart) as [Hend Hno].
  split; assumption.
Qed.

End Finished.

(** ** What a worker does with the queue *)










Lemma two_submitted_reachable : reachable two_submitted.
Proof. unfold reachable, two_submitted. do 4 eexists. split; [| reflexivity]. lia. Qed.





(** ** The threads of a pool in use *)

Lemma threads_ok_ext (w w' : World) :
  collected w' = collected w ->
  thread_objects w' = thread_objects w ->
  _threads (executor w') ⊆ _threads (executor w) ->
  divisor (executor w') = divisor (executor w) ->
  timeout (executor w') = timeout (executor w) ->
  threads_ok w -> threads_ok w'.
Proof.
  intros Hc Ho Ht Hd Htm (Hcol & Hdom & Hall). split; [congruence |]. split.
  - rewrite Ho. intros t Hin. apply Hdom, Ht, Hin.
  - intros t th Hth. rewrite Ho in Hth. rewrite (Hall t th Hth).
    unfold worker_thread. rewrite Hd, Htm. reflexivity.
Qed.

Lemma spawn_keeps_threads_ok (w : World) :
  threads_ok w -> threads_ok (after (ScalingPoolExecutor._spawn w)).
Proof.
  intros (Hcol & Hdom & Hall). rewrite spawn_reply. reply_simpl.
  split; [exact Hcol |]. split.
  - cbn [executor with_executor _threads with_threads thread_objects with_thread_objects].
    rewrite dom_insert_L. apply union_mono_l, Hdom.
  - intros t th.
    cbn [executor with_executor _threads with_threads thread_objects with_thread_objects].
    destruct (decide (t = next_thread w)) as [-> | Hne].
    + rewrite lookup_insert_eq. intros [= <-]. reflexivity.
    + rewrite lookup_insert_ne by congruence. intros Hth.
      rewrite (Hall t th Hth). reflexivity.
Qed.

Lemma for_range_spawn_keeps_threads_ok (n : nat) : forall w : World,
  threads_ok w -> threads_ok (after (for_range n ScalingPoolExecutor._spawn w)).
Proof.
  induction n as [| n IH]; intros w Hok; cbn [for_range]; [exact Hok |].
  erewrite bind_ok by apply spawn_reply. reply_simpl.
  apply IH. pose proof (spawn_keeps_threads_ok w Hok) as Hs.
  rewrite spawn_reply in Hs. exact Hs.
Qed.

Lemma adjust_keeps_threads_ok (w : World) :
  threads_ok w -> threads_ok (after (ScalingPoolExecutor._adjust_thread_count w)).
Proof.
  intros Hok.
  destruct (Z.eq_dec (divisor (executor w)) 0) as [Hzero | Hdiv].
  { rewrite adjust_with_zero_divisor by assumption. exact Hok. }
  apply Z.eqb_neq in Hdiv.
  assert (Hopt : ScalingPoolExecutor._optimum_workers w = mkReply (Ok (optimum w)) w []).
  { rewrite optimum_workers_reply, Hdiv. reflexivity. }
  unfold ScalingPoolExecutor._adjust_thread_count.
  erewrite bind_ok by reflexivity. erewrite bind_ok by exact Hopt. reply_simpl.
  destruct (_ <? _).
  - erewrite bind_ok by exact Hopt. erewrite bind_ok by reflexivity. reply_simpl.
    by apply for_range_spawn_keeps_threads_ok.
  - exact Hok.
Qed.

Lemma submit_keeps_threads_ok (fn : Callable) (args : list PyVal)
    (kwargs : list (string * PyVal)) (w : World) :
  threads_ok w -> threads_ok (after (ScalingPoolExecutor.submit fn args kwargs w)).
Proof.
  intros Hok. destruct (_shutdown (executor w)) eqn:Hdown.
  - rewrite submit_refused by assumption. exact Hok.
  - rewrite submit_accepted by assumption. cbv zeta. reply_simpl.
    apply adjust_keeps_threads_ok.
    eapply threads_ok_ext; [.. | exact Hok]; reflexivity.
Qed.

Lemma thread_worker_keeps_threads_ok (fuel me : nat) (ex : ExecutorRef) (jobs : QueueRef)
    (timeout maximum : Z) (w : World) :
  threads_ok w -> threads_ok (after (thread_worker fuel me ex jobs timeout maximum w)).
Proof.
  intros Hok. rewrite thread_worker_reply. cbv zeta.
  destruct (while_i_trace me ex jobs timeout fuel (maximum + 1) w)
    as (_ & (Hex & Hcol & Hobj) & _).
  assert (Hloop : threads_ok (after (while_i fuel me ex jobs timeout (maximum + 1) w))).
  { eapply threads_ok_ext; [.. | exact Hok]; try assumption; by rewrite Hex. }
  destruct (exit_of _); [destruct (collected _) |]; reply_simpl; try exact Hloop.
  eapply threads_ok_ext; [.. | exact Hloop]; try reflexivity.
  unfold without_thread. cbn [executor with_executor _threads with_threads].
  apply subseteq_difference_l. reflexivity.
Qed.

Lemma act_keeps_threads_ok (a : Action) (w : World) :
  threads_ok w -> threads_ok (after (act a w)).
Proof.
  intros Hok. destruct a as [fn args kwargs | f | wait | fuel t]; cbn [act].
  - unfold bind.
    pose proof (submit_keeps_threads_ok fn args kwargs w Hok) as Hsub.
    destruct (outcome (ScalingPoolExecutor.submit fn args kwargs w)); exact Hsub.
  - unfold bind.
    assert (Hc : threads_ok (after (Future.cancel f w))).
    { unfold Future.cancel, Future.store. monad_unfold. reply_simpl.
      destruct (future_of w f); exact Hok. }
    destruct (outcome (Future.cancel f w)); exact Hc.
  - rewrite shutdown_reply. reply_simpl.
    eapply threads_ok_ext; [.. | exact Hok]; reflexivity.
  - unfold bind.
    assert (Hr : threads_ok (after (run_thread fuel t w))).
    { destruct (run_thread_reply fuel t w) as [-> | (a1 & a2 & a3 & a4 & ->)];
        [exact Hok | by apply thread_worker_keeps_threads_ok]. }
    destruct (outcome (run_thread fuel t w)); exact Hr.
Qed.

Lemma reachable_threads_ok (w : World) : reachable w -> threads_ok w.
Proof.
  intros (workers & divisor & timeout & acts & Hpos & ->).
  assert (Hstart : threads_ok (pool workers divisor timeout)).
  { unfold pool. rewrite init_reply by assumption. reply_simpl.
    split; [reflexivity |]. split.
    - cbn [built executor with_queue with_executor _threads]. apply empty_subseteq.
    - intros t th. cbn [built thread_objects with_queue with_executor blank].
      rewrite lookup_empty. discriminate. }
  generalize dependent (pool workers divisor timeout). clear Hpos.
  induction acts as [| a acts IH]; intros w Hok; cbn [run_actions]; [exact Hok |].
  apply IH, act_keeps_threads_ok, Hok.
Qed.



(** ** The adjustment, case by case *)





(** ** A pool with a negative divisor *)






(** ** Loops that raise nothing *)



(** ** The manager *)

Lemma config_get_default (config : gmap string Z) (key : string) (d : Z) :
  DynamicManager.config_get config key d = default d (config !! key).
Proof. unfold DynamicManager.config_get. destruct (config !! key); reflexivity. Qed.

Lemma init_refused_reply (workers d tm : Z) (w : World) :
  workers <= 0 ->
  ScalingPoolExecutor.__init__ workers d tm w =
  mkReply (Exc (ValueError "max_workers must be greater than 0"))
    (with_executor
       {| _max_workers := _max_workers (executor w); divisor := d; timeout := tm;
          _threads := _threads (executor w); _shutdown := _shutdown (executor w) |} w)
    [].
Proof.
  intros Hle. unfold ScalingPoolExecutor.__init__, ScalingPoolExecutor.super__init__.
  erewrite bind_ok by reflexivity. reply_simpl.
  destruct (Z.leb_spec workers 0) as [_ | Hlt]; [| lia].
  erewrite bind_exc; reflexivity.
Qed.

Lemma startup_refused (self : DynamicManager.t) (w : World) :
  DynamicManager.workers self <= 0 ->
  outcome (DynamicManager.startup self w) =
    Exc (ValueError "max_workers must be greater than 0") /\
  emitted (DynamicManager.startup self w) =
    [Log INFO "Dynamic manager starting up.";
     Log DEBUG "Initializing transport queue.";
     TransportStartup;
     Log DEBUG ("Starting thread pool with " +:+ pretty (DynamicManager.workers self) +:+
                " workers.")].
Proof.
  intros Hle. unfold DynamicManager.startup.
  do 4 (erewrite bind_ok by reflexivity; reply_simpl).
  erewrite bind_exc by (apply init_refused_reply; exact Hle).
  split; reflexivity.
Qed.

Lemma manager_shutdown_reply (self : DynamicManager.t) (wait : bool) (w : World) :
  DynamicManager.executor self = Some the_executor ->
  DynamicManager.shutdown self wait w =
  mkReply (Ok tt) (after (ScalingPoolExecutor.shutdown wait w))
    ([Log INFO "Dynamic manager stopping."; Log DEBUG "Stopping thread pool."] ++
     shutdown_trace wait (elements (_threads (executor w))) ++
     [Log DEBUG "Draining transport queue."; TransportShutdown;
      Log INFO "Dynamic manager stopped."]).
Proof.
  intros Hex. unfold DynamicManager.shutdown. rewrite Hex.
  do 2 (erewrite bind_ok by reflexivity; reply_simpl).
  erewrite bind_ok by apply shutdown_reply. reply_simpl.
  do 2 (erewrite bind_ok by reflexivity; reply_simpl).
  rewrite shutdown_reply. reflexivity.
Qed.

(** ** Order in a trace *)

Lemma first_index_none (p : Event -> bool) (tr : list Event) :
  Forall (fun e => p e = false) tr -> first_index p tr = None.
Proof.
  induction 1 as [| e tr He _ IH]; [reflexivity |].
  cbn [first_index]. rewrite He, IH. reflexivity.
Qed.

Lemma first_index_found (p : Event -> bool) (tr : list Event) (e : Event) :
  e ∈ tr -> p e = true -> exists i, first_index p tr = Some i /\ (i < length tr)%nat.
Proof.
  induction tr as [| x tr IH]; intros Hin He; [inversion Hin |].
  cbn [first_index length]. destruct (p x) eqn:Hx.
  - exists O. split; [reflexivity | lia].
  - apply elem_of_cons in Hin as [-> | Hin]; [congruence |].
    destruct (IH Hin He) as (i & -> & Hlt). exists (S i). split; [reflexivity | lia].
Qed.

Lemma first_index_app (p : Event -> bool) (tr1 tr2 : list Event) :
  first_index p (tr1 ++ tr2) =
  match first_index p tr1 with
  | Some i => Some i
  | None => (fun j => (length tr1 + j)%nat) <$> first_index p tr2
  end.
Proof.
  induction tr1 as [| x tr1 IH]; cbn [app first_index length].
  - destruct (first_index p tr2); reflexivity.
  - destruct (p x); [reflexivity |]. rewrite IH.
    destruct (first_index p tr1); [reflexivity |].
    destruct (first_index p tr2); reflexivity.
Qed.

(** What happens in the first part of a trace, and nothing like [b] there,
    happens before every [b]. *)
Lemma precedes_in_prefix (a b : Event -> bool) (tr1 tr2 : list Event) (e : Event) :
  e ∈ tr1 -> a e = true -> Forall (fun x => b x = false) tr1 ->
  precedes a b (tr1 ++ tr2) = true.
Proof.
  intros Hin Ha Hb. unfold precedes. rewrite !first_index_app.
  destruct (first_index_found a tr1 e Hin Ha) as (i & -> & Hlt).
  rewrite (first_index_none b tr1 Hb).
  destruct (first_index b tr2); cbn; [| reflexivity].
  apply bool_decide_eq_true_2. lia.
Qed.

(** * The claims *)

(** C1: the thread that [_spawn] starts is built with the executor's
    [divisor] in the place of [thread_worker]'s parameter [timeout] and the
    executor's [timeout] in the place of [maximum].  So whenever that thread
    runs, it runs [thread_worker] with [timeout := divisor] and
    [maximum := timeout]: every wait of its loop on the queue is bounded by
    the divisor, and the loop's counter starts at the executor's timeout
    plus one, which bounds its passes. *)
Theorem spawn_passes_divisor_as_wait_bound (w : World) :
  let d := divisor (executor w) in
  let tm := timeout (executor w) in
  let r := ScalingPoolExecutor._spawn w in
  exists t,
    starts (emitted r) = [ThreadStart t] /\
    thread_objects (after r) !! t =
      Some {| thread_args := (the_executor, the_work_queue, d, tm);
              daemon := true; started := true |} /\
    forall (fuel : nat) (w' : World),
      thread_objects w' !! t = thread_objects (after r) !! t ->
      let r' := run_thread fuel t w' in
      r' = thread_worker fuel t the_executor the_work_queue d tm w' /\
      Forall (eq (QueueGet t true d)) (waits (emitted r')) /\
      waits (emitted r') =
        waits (emitted (while_i fuel t the_executor the_work_queue d (tm + 1) w')) /\
      (0 <= tm + 1 -> Z.of_nat (length (waits (emitted r'))) <= tm + 1).
Proof.
  cbv zeta. exists (next_thread w). rewrite spawn_reply. reply_simpl.
  cbn [thread_objects with_executor with_thread_objects].
  rewrite lookup_insert_eq. split; [reflexivity | split; [reflexivity |]].
  intros fuel w' Hsame.
  rewrite (run_thread_started fuel (next_thread w) w' _ _ _ _ _ Hsame).
  rewrite thread_worker_waits.
  destruct (while_i_trace (next_thread w) the_executor the_work_queue
              (divisor (executor w)) fuel (timeout (executor w) + 1) w')
    as (Hall & _ & Hle & _).
  repeat split; try assumption.
  intros Hbudget. specialize (Hle Hbudget). lia.
Qed.

(** A pool with divisor 5 and timeout 60: the thread it spawns waits on the
    queue with bound 5. *)
Lemma spawn_passes_divisor_as_wait_bound_witness :
  exists t,
    starts (emitted (ScalingPoolExecutor._spawn (pool 2 5 60))) = [ThreadStart t] /\
    Forall (eq (QueueGet t true 5))
      (waits (emitted (run_thread 3 t (after (ScalingPoolExecutor._spawn (pool 2 5 60)))))) /\
    Z.of_nat (length
      (waits (emitted (run_thread 3 t (after (ScalingPoolExecutor._spawn (pool 2 5 60)))))))
      <= 60 + 1.
Proof.
  destruct (spawn_passes_divisor_as_wait_bound (pool 2 5 60)) as (t & Hstart & _ & Hrun).
  exists t. split; [exact Hstart |].
  destruct (Hrun 3%nat (after (ScalingPoolExecutor._spawn (pool 2 5 60))) eq_refl)
    as (_ & Hall & _ & Hcount).
  split; [exact Hall | apply Hcount; vm_compute; discriminate].
Defined.



(** C3: for a work item whose future is still pending, [run] calls the
    callable once and resolves the future exactly once, with just what the
    call came to: its return value if it returned, the exception it raised if
    it raised.  Nothing is raised out of [run], and nothing else in the world
    changes.  Whatever is done with the pool afterwards, the future is not
    resolved again and keeps what it was resolved with. *)
Theorem run_resolves_exactly_once (self : WorkItem) (w : World) :
  future_of w (future self) = PENDING ->
  let r := WorkItem.run self w in
  let o := fn self (args self) (kwargs self) in
  outcome r = Ok tt /\
  emitted r = [Invoke (future self); resolve_event (future self) o] /\
  resolutions (future self) (emitted r) = [o] /\
  future_of (after r) (future self) = FINISHED o /\
  after r = with_futures (<[future self := FINISHED o]> (futures w)) w /\
  (forall acts : list Action,
     resolutions (future self) (trace_actions acts (after r)) = [] /\
     future_of (run_actions acts (after r)) (future self) = FINISHED o).
Proof.
  intros Hpending. cbv zeta. rewrite (run_when_pending self w Hpending). reply_simpl.
  split; [reflexivity |]. split; [reflexivity |]. split; [| split; [| split]].
  - unfold resolutions.
    destruct (fn self (args self) (kwargs self)); cbn;
      rewrite decide_True by reflexivity; reflexivity.
  - apply future_of_store_same.
  - reflexivity.
  - intros acts. apply finished_future_stays, future_of_store_same.
Qed.

(** The spec's scenario: a callable that raises [ValueError("x")]. *)
Lemma run_resolves_exactly_once_witness :
  let self := sample_item (Raises (ValueError "x")) in
  let r := WorkItem.run self blank in
  outcome r = Ok tt /\
  emitted r = [Invoke 0%nat; SetException 0%nat (ValueError "x")] /\
  resolutions 0%nat (emitted r) = [Raises (ValueError "x")] /\
  future_of (after r) 0%nat = FINISHED (Raises (ValueError "x")).
Proof.
  pose proof (run_resolves_exactly_once (sample_item (Raises (ValueError "x"))) blank eq_refl)
    as Hrun.
  cbv zeta in Hrun. destruct Hrun as (H1 & H2 & H3 & H4 & _).
  repeat split; assumption.
Defined.

(** C4: when marking the future running fails, that is when the future was
    cancelled before its item was taken, [run] returns at once: the callable
    is not called, the future is resolved with nothing and stays cancelled,
    and the only change in the world is the note on that future that the
    cancellation has been seen.  Nor is the callable called at any other
    time: whatever is done with the pool from then on, the trace has no call
    of it and the future stays cancelled. *)
Theorem run_of_cancelled_does_nothing (self : WorkItem) (w : World) :
  outcome (Future.set_running_or_notify_cancel (future self) w) = Ok false ->
  let r := WorkItem.run self w in
  outcome r = Ok tt /\
  emitted r = [] /\
  Future.cancelled (future_of (after r) (future self)) = true /\
  Future.result (future_of (after r) (future self)) = None /\
  Future.exception (future_of (after r) (future self)) = None /\
  after r = with_futures (<[future self := CANCELLED_AND_NOTIFIED]> (futures w)) w /\
  (forall acts : list Action,
     (Invoke (future self) ∉ trace_actions acts w) /\
     Future.cancelled (future_of (run_actions acts w) (future self)) = true).
Proof.
  intros Hfails. apply marking_fails_iff_cancelled in Hfails.
  cbv zeta. rewrite (run_when_cancelled self w Hfails). reply_simpl.
  rewrite future_of_store_same. repeat split.
  - apply cancelled_future_is_never_called. rewrite Hfails. reflexivity.
  - apply cancelled_future_is_never_called. rewrite Hfails. reflexivity.
Qed.

(** Future 0, cancelled while pending, and a work item on it. *)
Lemma run_of_cancelled_does_nothing_witness :
  let self := sample_item (Returns (PyInt 1)) in
  let r := WorkItem.run self cancelled_world in
  outcome r = Ok tt /\
  emitted r = [] /\
  Future.cancelled (future_of (after r) (future self)) = true.
Proof.
  pose proof (run_of_cancelled_does_nothing (sample_item (Returns (PyInt 1))) cancelled_world
                eq_refl) as Hrun.
  cbv zeta in Hrun. destruct Hrun as (H1 & H2 & H3 & _).
  repeat split; assumption.
Defined.

(** C5: [shutdown(wait)] raises the shutdown flag, puts one sentinel into the
    queue for each thread in the live-worker set, behind what is already
    queued, and with [wait] true joins every one of those threads before it
    returns.  It raises nothing and starts no thread, whatever state it is
    called in; so a second call raises nothing and spawns nothing either. *)
Theorem shutdown_flags_signals_and_joins (wait : bool) (w : World) :
  let r := ScalingPoolExecutor.shutdown wait w in
  let live := _threads (executor w) in
  outcome r = Ok tt /\
  _shutdown (executor (after r)) = true /\
  _work_queue (after r) = _work_queue w ++ replicate (size live) None /\
  emitted r =
    Acquire _shutdown_lock :: replicate (size live) (QueuePut None) ++
    Release _shutdown_lock :: (if wait then ThreadJoin <$> elements live else []) /\
  (forall t, t ∈ live -> wait = true -> ThreadJoin t ∈ emitted r) /\
  starts (emitted r) = [] /\
  _threads (executor (after r)) = live /\
  thread_objects (after r) = thread_objects w /\
  (forall wait' : bool,
     let r' := ScalingPoolExecutor.shutdown wait' (after r) in
     outcome r' = Ok tt /\
     starts (emitted r') = [] /\
     _shutdown (executor (after r')) = true /\
     _threads (executor (after r')) = live /\
     thread_objects (after r') = thread_objects w).
Proof.
  cbv zeta. rewrite shutdown_reply. reply_simpl.
  split; [reflexivity |]. split; [reflexivity |]. split; [reflexivity |].
  split; [reflexivity |]. split; [| split; [| split; [| split]]].
  - intros t Hlive ->. unfold shutdown_trace.
    apply list_elem_of_further, elem_of_app. right.
    apply list_elem_of_further, list_elem_of_fmap. exists t.
    split; [reflexivity | by apply elem_of_elements].
  - apply starts_shutdown_trace.
  - reflexivity.
  - reflexivity.
  - intros wait'. rewrite shutdown_reply. reply_simpl.
    rewrite starts_shutdown_trace. repeat split.
Qed.




(** C7, the claim as stated fails: [_spawn] starts the thread first and
    registers it afterwards, so nothing holds the thread back until it is in
    the set.  In this run the new thread goes through its whole loop between
    the two. *)
Lemma worker_runs_before_registration :
  let w := pool_with 2 5 0 [Some (item7 0)] ∅ in
  registered_before_running 0 (emitted (ScalingPoolExecutor._spawn w)) = false /\
  registered_before_running 0 (emitted (spawn_with_eager_worker 5 w)) = false /\
  waits (emitted (spawn_with_eager_worker 5 w)) = [QueueGet 0 true 5] /\
  precedes (is_wait_of 0) (is_add 0) (emitted (spawn_with_eager_worker 5 w)) = true.
Proof. repeat split; vm_compute; reflexivity. Qed.

(** C7, as amended: whenever the executor spawns a worker, it starts the new
    thread and then, under the management lock, registers it into the
    live-worker set, in this order.  After the first half the thread is
    started and not yet in the set; when [_spawn] returns it is in the set.
    The thread is a new one, and nothing else of the executor changes. *)
Theorem spawn_starts_then_registers (w : World) :
  let r1 := ScalingPoolExecutor.spawn_start w in
  let r := ScalingPoolExecutor._spawn w in
  exists t,
    outcome r1 = Ok t /\
    (t ∉ _threads (executor w)) /\
    (t ∉ dom (thread_objects w)) /\
    (started <$> thread_objects (after r1) !! t) = Some true /\
    (t ∉ _threads (executor (after r1))) /\
    outcome r = Ok tt /\
    emitted r =
      [ThreadStart t; Acquire _management_lock; ThreadsAdd t; Release _management_lock] /\
    registered_before_running t (emitted r) = false /\
    executor (after r) = with_threads ({[t]} ∪ _threads (executor w)) (executor w) /\
    (t ∈ _threads (executor (after r))).
Proof.
  cbv zeta. exists (next_thread w).
  destruct (next_thread_is_new w) as [Hset Hobj].
  rewrite spawn_reply, spawn_start_reply. reply_simpl.
  cbn [thread_objects with_executor with_thread_objects executor _threads with_threads].
  rewrite lookup_insert_eq.
  repeat split; try assumption.
  - unfold registered_before_running, precedes.
    cbn [first_index is_add is_start_of is_wait_of].
    rewrite !bool_decide_eq_true_2 by reflexivity. reflexivity.
  - set_solver.
Qed.




(** C9, the claim as stated fails: a worker that has terminated can be in
    the live-worker set.  The executor starts the thread before it registers
    it; here the thread takes the one item, runs out of budget, discards
    itself from a set it is not in yet, and is put into the set afterwards. *)
Lemma dead_worker_left_in_live_set :
  let w := pool_with 2 5 0 [Some (item7 0)] ∅ in
  let r := spawn_with_eager_worker 5 w in
  outcome r = Ok (0%nat, Some Exhaustion) /\
  collected (after r) = false /\
  bool_decide (0%nat ∈ _threads (executor (after r))) = true /\
  emitted r =
    [ThreadStart 0; QueueGet 0 true 5; Invoke 0; SetResult 0 (PyInt 7);
     Log DEBUG "Worker death from exhaustion."; ThreadsDiscard 0;
     Acquire _management_lock; ThreadsAdd 0; Release _management_lock].
Proof. repeat split; vm_compute; reflexivity. Qed.

(** C9, as amended: however the worker leaves its loop, by starvation, on a
    sentinel at shutdown, with its budget exhausted or on an exception caught
    at the top level, it then discards its own thread from the executor's
    live-worker set, if the weak reference still resolves; that is the last
    thing it does, and when it has terminated the set is the one it found
    less its own thread. *)
Theorem worker_discards_itself_on_every_exit (fuel me : nat) (ex : ExecutorRef)
    (jobs : QueueRef) (timeout maximum : Z) (w : World) (why : Exit) :
  outcome (thread_worker fuel me ex jobs timeout maximum w) = Ok (Some why) ->
  collected w = false ->
  let r := thread_worker fuel me ex jobs timeout maximum w in
  (me ∉ _threads (executor (after r))) /\
  executor (after r) = with_threads (_threads (executor w) ∖ {[me]}) (executor w) /\
  (exists tr, emitted r = tr ++ [ThreadsDiscard me]) /\
  (why = Starvation \/ why = ShutdownSignal \/ why = Exhaustion \/
   exists e, why = Unhandled e).
Proof.
  intros Hout Hlive. cbv zeta.
  rewrite thread_worker_reply in Hout |- *. cbv zeta in Hout |- *.
  destruct (while_i_trace me ex jobs timeout fuel (maximum + 1) w)
    as (_ & (Hex & Hcol & _) & _).
  destruct (exit_of (while_i fuel me ex jobs timeout (maximum + 1) w)) as [y |];
    [| discriminate].
  rewrite Hcol, Hlive in Hout |- *. reply_simpl.
  injection Hout as Hy. subst y.
  unfold without_thread. cbn [executor with_executor _threads with_threads].
  rewrite Hex. repeat split.
  - intros [_ Hme]%elem_of_difference. apply Hme, elem_of_singleton. reflexivity.
  - eauto.
  - destruct why; eauto.
Qed.

(** The four ways out, each on a world that leads to it. *)
Lemma worker_discards_itself_on_every_exit_witness :
  (0%nat ∉ _threads (executor (after
     (thread_worker 5 0 the_executor the_work_queue 5 60 (pool_with 2 5 60 [] {[0%nat]}))))) /\
  (0%nat ∉ _threads (executor (after
     (thread_worker 5 0 the_executor the_work_queue 5 60
        (stopping (pool_with 2 5 60 [None] {[0%nat]})))))) /\
  (0%nat ∉ _threads (executor (after
     (thread_worker 5 0 the_executor the_work_queue 5 0
        (pool_with 2 5 0 [Some (item7 0)] {[0%nat]}))))) /\
  (0%nat ∉ _threads (executor (after
     (thread_worker 5 0 the_executor the_work_queue (-1) 60
        (pool_with 2 (-1) 60 [Some (item7 0)] {[0%nat]}))))).
Proof.
  repeat split.
  - exact (proj1 (worker_discards_itself_on_every_exit 5 0 the_executor the_work_queue 5 60
      (pool_with 2 5 60 [] {[0%nat]}) Starvation eq_refl eq_refl)).
  - exact (proj1 (worker_discards_itself_on_every_exit 5 0 the_executor the_work_queue 5 60
      (stopping (pool_with 2 5 60 [None] {[0%nat]})) ShutdownSignal eq_refl eq_refl)).
  - exact (proj1 (worker_discards_itself_on_every_exit 5 0 the_executor the_work_queue 5 0
      (pool_with 2 5 0 [Some (item7 0)] {[0%nat]}) Exhaustion eq_refl eq_refl)).
  - exact (proj1 (worker_discards_itself_on_every_exit 5 0 the_executor the_work_queue (-1) 60
      (pool_with 2 (-1) 60 [Some (item7 0)] {[0%nat]})
      (Unhandled (ValueError "'timeout' must be a non-negative number")) eq_refl eq_refl)).
Defined.



(** * Further properties *)

(** ** The worker *)









(** ** The executor *)

(** X5: the constructor checks [workers] and nothing else.  With
    [workers] at zero or below it raises [ValueError], after [divisor] and
    [timeout] have been assigned and before the exit hook is registered, so
    no hook is left behind.  Otherwise it takes any [divisor] and [timeout],
    zero and negative ones too, registers the hook once, and leaves a pool
    with no thread, an empty queue and the shutdown flag down. *)
Theorem constructor_checks_only_workers (workers d tm : Z) (w : World) :
  let r := ScalingPoolExecutor.__init__ workers d tm w in
  (workers <= 0 ->
     outcome r = Exc (ValueError "max_workers must be greater than 0") /\
     emitted r = [] /\
     divisor (executor (after r)) = d /\
     timeout (executor (after r)) = tm) /\
  (0 < workers ->
     outcome r = Ok tt /\
     emitted r = [AtexitRegister] /\
     executor (after r) =
       {| _max_workers := workers; divisor := d; timeout := tm;
          _threads := ∅; _shutdown := false |} /\
     _work_queue (after r) = [] /\
     futures (after r) = futures w /\
     thread_objects (after r) = thread_objects w).
Proof.
  cbv zeta. split.
  - intros Hle. apply Z.leb_le in Hle.
    unfold ScalingPoolExecutor.__init__, ScalingPoolExecutor.super__init__.
    monad_unfold. reply_simpl. rewrite Hle. reply_simpl. repeat split.
  - intros Hpos. rewrite init_reply by assumption. reply_simpl. repeat split.
Qed.

(** One refused and one accepted construction. *)
Lemma constructor_checks_only_workers_witness :
  outcome (ScalingPoolExecutor.__init__ 0 5 60 blank) =
    Exc (ValueError "max_workers must be greater than 0") /\
  outcome (ScalingPoolExecutor.__init__ 2 (-5) (-60) blank) = Ok tt.
Proof.
  split.
  - exact (proj1 (proj1 (constructor_checks_only_workers 0 5 60 blank) ltac:(lia))).
  - exact (proj1 (proj2 (constructor_checks_only_workers 2 (-5) (-60) blank) ltac:(lia))).
Defined.









(** ** The pool in use *)



(** X11: however a pool is used, no future is resolved twice: the trace
    shows at most one resolution of each future, and a future is finished
    with an outcome just when the trace shows it resolved with that
    outcome. *)
Theorem every_future_is_resolved_at_most_once (workers d tm : Z) (acts : list Action)
    (f : nat) :
  let w := run_actions acts (pool workers d tm) in
  let tr := trace_actions acts (pool workers d tm) in
  (length (resolutions f tr) <= 1)%nat /\
  (forall o, future_of w f = FINISHED o <-> resolutions f tr = [o]) /\
  ((forall o, future_of w f <> FINISHED o) <-> resolutions f tr = []).
Proof.
  cbv zeta.
  destruct (futures_resolved_at_most_once workers d tm acts f) as [Hlen Hres].
  cbv zeta in Hlen, Hres. split; [exact Hlen |]. rewrite Hres. split.
  - intros o. split.
    + intros ->. reflexivity.
    + destruct (future_of _ f); try discriminate. intros [= ->]. reflexivity.
  - split.
    + intros Hne. destruct (future_of _ f) as [| | | | o]; try reflexivity.
      destruct (Hne o eq_refl).
    + destruct (future_of _ f); try discriminate; intros _ o; discriminate.
Qed.

(** X12: however a pool is used, every thread of its live-worker set is a
    thread that [_spawn] built and started for it: a daemon whose target is
    called with the executor's weak reference, its queue, its divisor and
    its timeout, in this order.  So each live worker waits on the queue with
    the divisor for its bound and has the timeout for its budget. *)
Theorem live_workers_are_the_threads_spawned (w : World) :
  reachable w ->
  forall t, t ∈ _threads (executor w) ->
    thread_objects w !! t =
      Some {| thread_args := (the_executor, the_work_queue,
                              divisor (executor w), timeout (executor w));
              daemon := true; started := true |} /\
    (forall fuel,
       run_thread fuel t w =
       thread_worker fuel t the_executor the_work_queue
         (divisor (executor w)) (timeout (executor w)) w).
Proof.
  intros Hreach t Hlive.
  destruct (reachable_threads_ok w Hreach) as (_ & Hdom & Hall).
  apply Hdom, elem_of_dom in Hlive as [th Hth].
  rewrite (Hall t th Hth) in Hth.
  split; [exact Hth |]. intros fuel. exact (run_thread_started fuel t w _ _ _ _ _ Hth).
Qed.

(** The one worker of [two_submitted], a pool with divisor 1 and timeout 5. *)
Lemma live_workers_are_the_threads_spawned_witness :
  thread_objects two_submitted !! 0%nat =
    Some {| thread_args := (the_executor, the_work_queue, 1, 5);
            daemon := true; started := true |}.
Proof.
  exact (proj1 (live_workers_are_the_threads_spawned two_submitted two_submitted_reachable
                  0%nat ltac:(vm_compute; reflexivity))).
Defined.

(** X13: however a pool is used, its queue holds no future twice, and the
    future of every work item waiting in it is pending or cancelled: a
    future that is running or finished is never waiting in the queue.  So
    what a worker takes off the queue is always work that [run] can take
    up. *)
Theorem queue_holds_only_work_to_do (w : World) :
  reachable w ->
  NoDup (queued_futures w) /\
  (forall item, Some item ∈ _work_queue w ->
     (future item ∈ dom (futures w)) /\
     (future_of w (future item) = PENDING \/ future_of w (future item) = CANCELLED) /\
     outcome (WorkItem.run item w) = Ok tt).
Proof.
  intros Hreach. destruct (reachable_pool_ok w Hreach) as [_ [Hnd Hall]].
  split; [exact Hnd |]. intros item Hin.
  destruct (Hall (future item)) as [Hdom Hrun].
  { apply list_elem_of_omap. exists (Some item). split; [exact Hin | reflexivity]. }
  split; [exact Hdom |]. split; [exact Hrun |].
  destruct (run_of_runnable item w Hrun) as (x & _ & _ & Hok & _).
  exact Hok.
Qed.

(** The two futures waiting in the queue of [two_submitted]. *)
Lemma queue_holds_only_work_to_do_witness :
  NoDup (queued_futures two_submitted) /\
  length (queued_futures two_submitted) = 2%nat.
Proof.
  split.
  - exact (proj1 (queue_holds_only_work_to_do two_submitted two_submitted_reachable)).
  - reflexivity.
Defined.

(** ** The manager *)

(** X14: a manager takes its three settings from the configuration,
    [workers] and [divisor] with 10 and [timeout] with 60 for a key that is
    missing, and has no executor until [startup].  [startup] starts the
    transport pool first and then builds the executor from those settings:
    an empty pool, with the exit hook registered.  With [workers] at zero or
    below the executor's constructor raises [ValueError] out of [startup];
    by then the transport pool has been started, and the line that the
    manager is ready is not logged. *)
Theorem startup_builds_the_pool_from_the_configuration (config : gmap string Z)
    (transport : DynamicManager.TransportPool) (w : World) :
  let manager := DynamicManager.__init__ config transport in
  let workers := default 10 (config !! "workers") in
  let r := DynamicManager.startup manager w in
  DynamicManager.executor manager = None /\
  (0 < workers ->
     exists started,
       outcome r = Ok started /\
       DynamicManager.executor started = Some the_executor /\
       DynamicManager.transport started = transport /\
       executor (after r) =
         {| _max_workers := workers;
            divisor := default 10 (config !! "divisor");
            timeout := default 60 (config !! "timeout");
            _threads := ∅; _shutdown := false |} /\
       _work_queue (after r) = [] /\
       emitted r =
         [Log INFO "Dynamic manager starting up.";
          Log DEBUG "Initializing transport queue.";
          TransportStartup;
          Log DEBUG ("Starting thread pool with " +:+ pretty workers +:+ " workers.");
          AtexitRegister;
          Log INFO "Dynamic manager ready."]) /\
  (workers <= 0 ->
     outcome r = Exc (ValueError "max_workers must be greater than 0") /\
     emitted r =
       [Log INFO "Dynamic manager starting up.";
        Log DEBUG "Initializing transport queue.";
        TransportStartup;
        Log DEBUG ("Starting thread pool with " +:+ pretty workers +:+ " workers.")]).
Proof.
  cbv zeta. split; [reflexivity |].
  assert (Hw : DynamicManager.workers (DynamicManager.__init__ config transport) =
               default 10 (config !! "workers")) by apply config_get_default.
  split.
  - intros Hpos. rewrite startup_reply by (rewrite Hw; exact Hpos). reply_simpl.
    eexists. split; [reflexivity |]. split; [reflexivity |]. split; [reflexivity |].
    unfold built. cbn [executor with_queue with_executor _work_queue].
    cbn [DynamicManager.__init__ DynamicManager.workers DynamicManager.divisor
         DynamicManager.timeout].
    rewrite !config_get_default. repeat split.
  - intros Hle. rewrite <- Hw in *. apply startup_refused. exact Hle.
Qed.

(** A configuration that names no setting: ten workers at most, a divisor of
    ten and a timeout of sixty. *)
Lemma startup_builds_the_pool_from_the_configuration_witness :
  exists started,
    outcome (DynamicManager.startup (DynamicManager.__init__ ∅ sample_transport) blank) =
      Ok started /\
    executor (after (DynamicManager.startup (DynamicManager.__init__ ∅ sample_transport)
                       blank)) =
      {| _max_workers := 10; divisor := 10; timeout := 60;
         _threads := ∅; _shutdown := false |}.
Proof.
  destruct (proj1 (proj2 (startup_builds_the_pool_from_the_configuration ∅ sample_transport
                            blank)) ltac:(rewrite lookup_empty; reflexivity))
    as (started & H1 & _ & _ & H4 & _).
  exists started. split; [exact H1 | exact H4].
Defined.

(** X15: a manager that was not started has no executor: [deliver] raises
    [AttributeError] and touches nothing, and [shutdown] raises it after its
    first two log lines, before the transport pool is shut down. *)
Theorem manager_needs_startup (config : gmap string Z)
    (transport : DynamicManager.TransportPool) (message : PyVal) (wait : bool) (w : World) :
  let manager := DynamicManager.__init__ config transport in
  DynamicManager.deliver manager message w =
    mkReply (Exc (BaseException "AttributeError"
                    "'NoneType' object has no attribute 'submit'")) w [] /\
  DynamicManager.shutdown manager wait w =
    mkReply (Exc (BaseException "AttributeError"
                    "'NoneType' object has no attribute 'shutdown'")) w
      [Log INFO "Dynamic manager stopping."; Log DEBUG "Stopping thread pool."] /\
  (TransportShutdown ∉ emitted (DynamicManager.shutdown manager wait w)).
Proof.
  cbv zeta.
  assert (Hdown : DynamicManager.shutdown (DynamicManager.__init__ config transport) wait w =
    mkReply (Exc (BaseException "AttributeError"
                    "'NoneType' object has no attribute 'shutdown'")) w
      [Log INFO "Dynamic manager stopping."; Log DEBUG "Stopping thread pool."]).
  { reflexivity. }
  split; [reflexivity |]. split; [exact Hdown |].
  rewrite Hdown. reply_simpl. intros Hin.
  apply elem_of_cons in Hin as [Hin | Hin]; [discriminate |].
  apply list_elem_of_singleton in Hin. discriminate.
Qed.



(** X17: [shutdown] of a started manager stops the thread pool first and
    the transport pool after it: the executor's flag goes up and its
    sentinels go into the queue, with [wait] every live worker is joined,
    and only then is the transport pool shut down.  Nothing is raised.  A
    [deliver] after that raises [RuntimeError] and queues nothing. *)
Theorem manager_shutdown_stops_pool_then_transport (self : DynamicManager.t) (wait : bool)
    (w : World) :
  DynamicManager.executor self = Some the_executor ->
  let r := DynamicManager.shutdown self wait w in
  let live := _threads (executor w) in
  outcome r = Ok tt /\
  after r = after (ScalingPoolExecutor.shutdown wait w) /\
  _shutdown (executor (after r)) = true /\
  _work_queue (after r) = _work_queue w ++ replicate (size live) None /\
  emitted r =
    [Log INFO "Dynamic manager stopping."; Log DEBUG "Stopping thread pool."] ++
    emitted (ScalingPoolExecutor.shutdown wait w) ++
    [Log DEBUG "Draining transport queue."; TransportShutdown;
     Log INFO "Dynamic manager stopped."] /\
  (wait = true ->
   forall t, t ∈ live ->
     precedes (is_join t) is_transport_shutdown (emitted r) = true) /\
  (forall message,
     DynamicManager.deliver self message (after r) =
     mkReply (Exc (RuntimeError "cannot schedule new futures after shutdown")) (after r) []).
Proof.
  intros Hex. cbv zeta. rewrite (manager_shutdown_reply self wait w Hex).
  rewrite shutdown_reply. reply_simpl.
  split; [reflexivity |]. split; [reflexivity |]. split; [reflexivity |].
  split; [reflexivity |]. split; [reflexivity |]. split.
  - intros -> t Hlive.
    change (?a :: ?b :: ?l ++ ?m) with ((a :: b :: l) ++ m).
    apply (precedes_in_prefix _ _ _ _ (ThreadJoin t)).
    + do 2 apply list_elem_of_further. unfold shutdown_trace.
      apply list_elem_of_further, elem_of_app. right.
      apply list_elem_of_further, list_elem_of_fmap. exists t.
      split; [reflexivity | by apply elem_of_elements].
    + cbn [is_join]. by apply bool_decide_eq_true_2.
    + do 2 (apply Forall_cons; split; [reflexivity |]).
      unfold shutdown_trace. apply Forall_cons; split; [reflexivity |].
      apply Forall_app; split.
      * apply Forall_replicate. reflexivity.
      * apply Forall_cons; split; [reflexivity |].
        apply Forall_fmap, Forall_true. intros x. reflexivity.
  - intros message. unfold DynamicManager.deliver. rewrite Hex.
    apply submit_refused. reflexivity.
Qed.

(** The manager of [two_submitted]'s pool is shut down with [wait]: its one
    worker is joined before the transport pool is shut down. *)
Lemma manager_shutdown_stops_pool_then_transport_witness :
  let r := DynamicManager.shutdown sample_manager true two_submitted in
  outcome r = Ok tt /\
  _shutdown (executor (after r)) = true /\
  outcome (DynamicManager.deliver sample_manager (PyStr "message") (after r)) =
    Exc (RuntimeError "cannot schedule new futures after shutdown").
Proof.
  pose proof (manager_shutdown_stops_pool_then_transport sample_manager true two_submitted
                eq_refl) as H.
  cbv zeta in H. destruct H as (H1 & _ & H3 & _ & _ & _ & H7).
  split; [exact H1 |]. split; [exact H3 |].
  rewrite (H7 (PyStr "message")). reflexivity.
Defined.
